(** * rl::geom::Size (impeller/geometry/Size.h)

    A shallow embedding of the [Size] value type and of its operators.
    The fields are C++ [double]s: they are modelled by Rocq's primitive
    binary64 numbers ([PrimFloat.float]), whose operations are the IEEE 754
    ones (round to nearest, ties to even, one NaN).  Statements that hold
    for every value are proved through their specification over
    [SpecFloat.spec_float] ([FloatAxioms]); statements about given values
    are proved by evaluation. *)

From Stdlib Require Import ZArith Bool List Ascii String Lia.
From Stdlib Require Import Floats.
Import ListNotations.

Set Warnings "-inexact-float".

(** ** The C++ comparison operators on [double] *)

Module Double.

Local Open Scope float_scope.

(** [a == b]. *)
Definition eq (a b : float) : bool := a =? b.

(** [a != b]: true when the operands are less, greater or unordered. *)
Definition ne (a b : float) : bool :=
  match a ?= b with
  | FEq => false
  | FLt | FGt | FNotComparable => true
  end.

(** [a < b]. *)
Definition lt (a b : float) : bool := a <? b.

(** [a > b]. *)
Definition gt (a b : float) : bool :=
  match a ?= b with
  | FGt => true
  | FEq | FLt | FNotComparable => false
  end.

(** [std::max(a, b)]: [(a < b) ? b : a]. *)
Definition max (a b : float) : float := if lt a b then b else a.

End Double.

(** ** The data model *)

Record Size : Set := mkSize { width : float; height : float }.

Module Size.

Local Open Scope float_scope.

(** [Size() : width(0.0), height(0.0)] *)
Definition default : Size := mkSize 0 0.

(** [operator*(double scale)] *)
Definition mul (self : Size) (scale : float) : Size :=
  mkSize (width self * scale) (height self * scale).

(** [operator==(const Size& s)] *)
Definition eq (self s : Size) : bool :=
  Double.eq (width s) (width self) && Double.eq (height s) (height self).

(** [operator!=(const Size& s)] *)
Definition ne (self s : Size) : bool :=
  Double.ne (width s) (width self) || Double.ne (height s) (height self).

(** [operator+(const Size& s)] *)
Definition add (self s : Size) : Size :=
  mkSize (width self + width s) (height self + height s).

(** [operator-(const Size& s)] *)
Definition sub (self s : Size) : Size :=
  mkSize (width self - width s) (height self - height s).

(** [unionWith(const Size& o)] *)
Definition unionWith (self o : Size) : Size :=
  mkSize (Double.max (width self) (width o))
         (Double.max (height self) (height o)).

(** [isZero()] *)
Definition isZero (self : Size) : bool :=
  Double.eq (width self * height self) 0.

(** [isPositive()] *)
Definition isPositive (self : Size) : bool :=
  Double.gt (width self) 0 && Double.gt (height self) 0.

End Size.

(** ** Textual form ([toString], [fromString])

    Modelled from the spec: Size.h declares [toString] and [fromString]
    and no file of the sources at hand defines them.  This module is their
    model: the text [<width>x<height>] ("<width><separator><height>" with
    the separator [x]), where each scalar is a decimal numeral with the
    radix point [.]. *)

Module Text.

Local Open Scope Z_scope.

(** The character of a decimal digit [0 <= d < 10]. *)
Definition digit_char (d : Z) : ascii := ascii_of_N (Z.to_N (48 + d)).

(** The digit a character stands for, if any. *)
Definition digit_val (c : ascii) : option Z :=
  let n := Z.of_N (N_of_ascii c) in
  if (48 <=? n) && (n <=? 57) then Some (n - 48) else None.

Definition is_digit (c : ascii) : bool :=
  match digit_val c with
  | Some _ => true
  | None => false
  end.

(** The characters of a numeral. *)
Definition numeral_char (c : ascii) : bool :=
  is_digit c || Ascii.eqb c "-"%char || Ascii.eqb c "."%char.

(** [n] written with exactly [k] decimal digits, zero padded. *)
Fixpoint fixed_digits (k : nat) (n : Z) : list ascii :=
  match k with
  | O => []
  | S k' => fixed_digits k' (n / 10) ++ [digit_char (n mod 10)]
  end.

(** [n] written in decimal without leading zeros, at most [fuel] digits. *)
Fixpoint digits_fuel (fuel : nat) (n : Z) : list ascii :=
  match fuel with
  | O => []
  | S f =>
      (if n <? 10 then [] else digits_fuel f (n / 10))
      ++ [digit_char (n mod 10)]
  end.

(** A natural number has no more decimal than binary digits. *)
Definition print_nat (n : Z) : list ascii :=
  digits_fuel (S (Z.to_nat (Z.log2 n))) n.

(** [m * 2^e] with the trailing zero bits of [m] moved to the exponent. *)
Fixpoint strip_twos (m : positive) (e : Z) : positive * Z :=
  match m with
  | xO m' => strip_twos m' (e + 1)
  | _ => (m, e)
  end.

Definition print_sign (s : bool) : list ascii :=
  if s then ["-"%char] else [].

(** Modelled from the spec: a finite scalar is written losslessly, as the
    exact decimal expansion of [(-1)^s * m * 2^e]: an integer when the
    value is one, otherwise the integer part, a point and the [-e']
    fractional digits of [m' / 2^(-e')] with [m'] odd. *)
Definition print_finite (s : bool) (m : positive) (e : Z) : list ascii :=
  let (m', e') := strip_twos m e in
  print_sign s ++
  if 0 <=? e' then print_nat (Zpos m' * 2 ^ e')
  else
    print_nat (Zpos m' / 2 ^ (- e')) ++ "."%char ::
    fixed_digits (Z.to_nat (- e')) ((Zpos m' mod 2 ^ (- e')) * 5 ^ (- e')).

(** Modelled from the spec: the numeral of a scalar; [inf] and [nan] for
    the values that are not finite. *)
Definition print_double (x : float) : list ascii :=
  match Prim2SF x with
  | S754_zero s => print_sign s ++ ["0"%char]
  | S754_finite s m e => print_finite s m e
  | S754_infinity s => print_sign s ++ list_ascii_of_string "inf"
  | S754_nan => list_ascii_of_string "nan"
  end.

(** The value of a string of digits, most significant first. *)
Fixpoint digits_val (acc : Z) (l : list ascii) : option Z :=
  match l with
  | [] => Some acc
  | c :: l' =>
      match digit_val c with
      | Some d => digits_val (10 * acc + d) l'
      | None => None
      end
  end.

(** One digit at least. *)
Definition parse_digits (l : list ascii) : option Z :=
  match l with
  | [] => None
  | _ :: _ => digits_val 0 l
  end.

(** The text before and after the first [sep]. *)
Fixpoint split_at (sep : ascii) (l : list ascii)
  : option (list ascii * list ascii) :=
  match l with
  | [] => None
  | c :: l' =>
      if Ascii.eqb c sep then Some ([], l')
      else
        match split_at sep l' with
        | Some (a, b) => Some (c :: a, b)
        | None => None
        end
  end.

(** [digits] or [digits.digits]: the numerator [n] and the number [k] of
    fractional digits of the value [n / 10^k]. *)
Definition parse_unsigned (l : list ascii) : option (Z * nat) :=
  match split_at "."%char l with
  | None =>
      match parse_digits l with
      | Some i => Some (i, O)
      | None => None
      end
  | Some (ip, fp) =>
      match parse_digits ip, parse_digits fp with
      | Some i, Some f =>
          Some (i * 10 ^ Z.of_nat (List.length fp) + f, List.length fp)
      | _, _ => None
      end
  end.

(** An optional minus sign, then an unsigned numeral. *)
Definition parse_decimal (l : list ascii) : option (bool * Z * nat) :=
  match l with
  | [] => None
  | c :: r =>
      if Ascii.eqb c "-"%char
      then option_map (fun nk => (true, fst nk, snd nk)) (parse_unsigned r)
      else option_map (fun nk => (false, fst nk, snd nk)) (parse_unsigned l)
  end.

(** The binary64 number nearest to [(-1)^s * n / 10^k] (ties to even): the
    correctly rounded quotient of the two integers. *)
Definition round_decimal (s : bool) (n : Z) (k : nat) : spec_float :=
  match n with
  | Zpos p =>
      SFdiv prec emax (S754_finite s p 0)
            (S754_finite false (Z.to_pos (10 ^ Z.of_nat k)) 0)
  | _ => S754_zero s
  end.

(** Modelled from the spec: a numeral is accepted when it parses as a
    finite floating-point value. *)
Definition parse_double (l : list ascii) : option float :=
  match parse_decimal l with
  | Some (s, n, k) =>
      let x := SF2Prim (round_decimal s n k) in
      if is_finite x then Some x else None
  | None => None
  end.

(** Modelled from the spec: the input is [<width>x<height>]. *)
Definition parse_size (l : list ascii) : option Size :=
  match split_at "x"%char l with
  | Some (wl, hl) =>
      match parse_double wl, parse_double hl with
      | Some w, Some h => Some (mkSize w h)
      | _, _ => None
      end
  | None => None
  end.

(** Modelled from the spec: the output is [<width>x<height>]. *)
Definition print_size (s : Size) : list ascii :=
  print_double (width s) ++ "x"%char :: print_double (height s).

End Text.

(** Modelled from the spec: the single error kind, raised by [fromString]
    only. *)
Inductive error : Set := ParseError.

(** Modelled from the spec: [Size::toString] is declared in Size.h and
    defined in no file of the sources at hand.  The text is
    [<width>x<height>]; each scalar is a decimal numeral with [.] as radix
    point and [-] as sign, without fractional part for an integral value
    (["100x200"]) and with all the digits of the exact value otherwise
    (["100.5x200.25"]).  An infinity is written [inf] and a NaN [nan]. *)
Definition toString (self : Size) : string :=
  string_of_list_ascii (Text.print_size self).

(** Modelled from the spec: [Size::fromString] is declared in Size.h and
    defined in no file of the sources at hand.  It parses [<width>x<height>]
    into the receiver: two numerals ([-] optional, digits, and optionally
    [.] and digits; no white space, no exponent), each rounded to the
    nearest [double].  It fails with [ParseError] when the text has not that
    shape or when a numeral does not denote a finite number, and then leaves
    the receiver at [(0, 0)].  The result is the outcome and the receiver's
    state after the call. *)
Definition fromString (self : Size) (str : string) : (unit + error) * Size :=
  match Text.parse_size (list_ascii_of_string str) with
  | Some s => (inl tt, s)
  | None => (inr ParseError, mkSize 0 0)
  end.

(** ** The grammar of the text (used in statements only)

    Modelled from the spec: the grammar "<width><separator><height>" that
    [fromString] accepts, stated as a relation between a text and what it
    denotes. *)

Module Grammar.

Import Text.
Local Open Scope Z_scope.

(** A non-empty string of decimal digits. *)
Definition digits (l : list ascii) : Prop :=
  l <> [] /\ Forall (fun c => is_digit c = true) l.

(** Modelled from the spec: [numeral l s n k] when the text [l] is an
    optional minus sign (present when
    [s]), digits, and optionally a point and digits; it denotes
    [(-1)^s * n / 10^k]. *)
Inductive numeral : list ascii -> bool -> Z -> nat -> Prop :=
| numeral_int (s : bool) (ip : list ascii) (i : Z) :
    digits ip -> digits_val 0 ip = Some i ->
    numeral (print_sign s ++ ip) s i O
| numeral_frac (s : bool) (ip fp : list ascii) (i f : Z) :
    digits ip -> digits fp ->
    digits_val 0 ip = Some i -> digits_val 0 fp = Some f ->
    numeral (print_sign s ++ ip ++ "."%char :: fp) s
            (i * 10 ^ Z.of_nat (List.length fp) + f) (List.length fp).

(** Modelled from the spec: the text [l] is a numeral and [x] is the
    binary64 number nearest to its value (an infinity when the value is too
    large). *)
Definition numeral_of (l : list ascii) (x : float) : Prop :=
  exists s n k, numeral l s n k /\ x = SF2Prim (round_decimal s n k).

(** Modelled from the spec: [str] conforms to [<width>x<height>], and its
    numerals parse as [w] and [h]. *)
Definition conforms (str : string) (w h : float) : Prop :=
  exists wl hl,
    list_ascii_of_string str = wl ++ "x"%char :: hl /\
    numeral_of wl w /\ numeral_of hl h.

End Grammar.

(** ** Classification of sizes (used in statements only) *)

(** Some field of [s] is a NaN. *)
Definition has_nan (s : Size) : bool :=
  is_nan (width s) || is_nan (height s).

(** Both fields of [s] are finite (neither NaN nor an infinity). *)
Definition all_finite (s : Size) : bool :=
  is_finite (width s) && is_finite (height s).

(** The magnitude of the exact product of two finite non-zero numbers is at
    most [2^(-1075)], half the least positive [double]:
    [ma * 2^ea * mb * 2^eb <= 2^(-1075)], stated on integers. *)
Definition product_underflows (a b : float) : bool :=
  match Prim2SF a, Prim2SF b with
  | S754_finite _ ma ea, S754_finite _ mb eb =>
      (Zpos (ma * mb) <=? 2 ^ (-1075 - (ea + eb)))%Z
  | _, _ => false
  end.

(** A key that orders the numbers as the comparisons of [double] do (a NaN
    apart): class and sign first, then exponent and mantissa, both negated
    below zero. *)
Definition SFkey (x : spec_float) : Z * Z * Z :=
  match x with
  | S754_nan | S754_zero _ => (0, 0, 0)
  | S754_infinity s => (if s then -2 else 2, 0, 0)
  | S754_finite s m e => if s then (-1, - e, Zneg m) else (1, e, Zpos m)
  end%Z.

(** The lexicographic order on keys. *)
Definition key_lt (k k' : Z * Z * Z) : Prop :=
  let '(a, b, c) := k in
  let '(a', b', c') := k' in
  (a < a' \/ (a = a' /\ (b < b' \/ (b = b' /\ c < c'))))%Z.

(** [r] is the maximum of [x] and [y]: it is one of them, and both are less
    than or equal to it.  A NaN is the maximum of nothing, and nothing is
    the maximum of a NaN. *)
Definition is_max_of (r x y : float) : Prop :=
  (r = x \/ r = y) /\ (x <=? r)%float = true /\ (y <=? r)%float = true.

(** * Properties of the binary64 specification *)

Section SpecFloatFacts.

Lemma SFcompare_antisym (x y : spec_float) :
  SFcompare y x = option_map CompOpp (SFcompare x y).
Proof.
  destruct x as [sx|sx| |sx mx ex], y as [sy|sy| |sy my ey]; simpl;
    try reflexivity;
    try (destruct sx; reflexivity); try (destruct sy; reflexivity);
    try (destruct sx, sy; reflexivity).
  destruct sx, sy; simpl; try reflexivity;
    rewrite (Z.compare_antisym ex ey);
    destruct (ex ?= ey)%Z; simpl; try reflexivity;
    rewrite (Pos.compare_cont_antisym mx my Eq); simpl;
    destruct (Pos.compare_cont Eq mx my); reflexivity.
Qed.

Lemma SFcompare_refl (x : spec_float) :
  x <> S754_nan -> SFcompare x x = Some Eq.
Proof.
  destruct x as [s|s| |s m e]; simpl; intros H; try congruence.
  - destruct s; reflexivity.
  - rewrite Z.compare_refl, Pos.compare_cont_refl. destruct s; reflexivity.
Qed.

Lemma SFeqb_refl (x : spec_float) :
  SFeqb x x = match x with S754_nan => false | _ => true end.
Proof.
  unfold SFeqb. destruct x as [s|s| |s m e]; try reflexivity.
  - now destruct s.
  - rewrite SFcompare_refl by discriminate. reflexivity.
Qed.

Lemma SFltb_asym (x y : spec_float) : SFltb x y = true -> SFltb y x = false.
Proof.
  unfold SFltb. rewrite (SFcompare_antisym y x).
  destruct (SFcompare y x) as [[]|]; simpl; congruence.
Qed.

Lemma SFltb_irrefl (x : spec_float) : SFltb x x = false.
Proof.
  unfold SFltb. destruct x as [s|s| |s m e]; try reflexivity.
  - now destruct s.
  - rewrite SFcompare_refl by discriminate. reflexivity.
Qed.

Lemma SFleb_refl (x : spec_float) :
  SFleb x x = match x with S754_nan => false | _ => true end.
Proof.
  unfold SFleb. destruct x as [s|s| |s m e]; try reflexivity.
  - now destruct s.
  - rewrite SFcompare_refl by discriminate. reflexivity.
Qed.

Lemma SFltb_leb (x y : spec_float) : SFltb x y = true -> SFleb x y = true.
Proof.
  unfold SFltb, SFleb. destruct (SFcompare x y) as [[]|]; congruence.
Qed.

(** Two numbers are comparable: when the first is not less, the second is
    less or equal. *)
Lemma SFleb_of_not_ltb (x y : spec_float) :
  x <> S754_nan -> y <> S754_nan -> SFltb x y = false -> SFleb y x = true.
Proof.
  intros Hx Hy. unfold SFltb, SFleb. rewrite (SFcompare_antisym x y).
  destruct (SFcompare x y) as [[]|] eqn:E; simpl; try congruence.
  destruct x, y; simpl in E; congruence.
Qed.

Lemma SFleb_nan (x y : spec_float) :
  x = S754_nan \/ y = S754_nan -> SFleb x y = false.
Proof.
  unfold SFleb. intros [->| ->]; [reflexivity | now destruct x].
Qed.

Lemma SFadd_comm (x y : spec_float) :
  SFadd prec emax x y = SFadd prec emax y x.
Proof.
  destruct x as [sx|sx| |sx mx ex], y as [sy|sy| |sy my ey]; simpl;
    try reflexivity; try (destruct sx, sy; reflexivity).
  rewrite (Z.min_comm ey ex). f_equal. apply Z.add_comm.
Qed.

End SpecFloatFacts.

(** * Rounding in binary64 *)

Section Rounding.


Local Open Scope Z_scope.

(** ** Exact quotients of integers *)

Lemma fexp_64 (x : Z) : fexp prec emax x = Z.max (x - 53) (-1074).
Proof. reflexivity. Qed.

Lemma fexp_mono (x y : Z) : x <= y -> fexp prec emax x <= fexp prec emax y.
Proof. rewrite !fexp_64. lia. Qed.

Lemma digits2_pos_size (p : positive) : digits2_pos p = Pos.size p.
Proof. induction p; simpl; congruence. Qed.

Lemma digits2_log2 (p : positive) :
  Zpos (digits2_pos p) = Z.succ (Z.log2 (Zpos p)).
Proof.
  destruct p; simpl; rewrite ?digits2_pos_size; lia.
Qed.

Lemma digits2_bounds (p : positive) :
  2 ^ (Zpos (digits2_pos p) - 1) <= Zpos p < 2 ^ Zpos (digits2_pos p).
Proof.
  rewrite digits2_log2. replace (Z.succ (Z.log2 (Zpos p)) - 1) with (Z.log2 (Zpos p)) by lia.
  apply Z.log2_spec. lia.
Qed.

Lemma Zdigits2_mul_pow2 (m : positive) (j : Z) :
  0 <= j -> Zdigits2 (Zpos m * 2 ^ j) = Zpos (digits2_pos m) + j.
Proof.
  intros Hj.
  assert (H : 0 < Zpos m * 2 ^ j) by (apply Z.mul_pos_pos; [lia | apply Z.pow_pos_nonneg; lia]).
  destruct (Zpos m * 2 ^ j) as [|q|q] eqn:E; try lia.
  cbn [Zdigits2]. rewrite !digits2_log2, <- E. rewrite Z.log2_mul_pow2 by lia. lia.
Qed.

Lemma pow2_xO (q p : positive) :
  Zpos q * 2 ^ Zpos p~0 = Zpos (q * 2 ^ p) * 2 ^ Zpos p.
Proof.
  rewrite Pos2Z.inj_mul, Pos2Z.inj_pow.
  replace (Zpos p~0) with (Zpos p + Zpos p) by lia.
  rewrite Z.pow_add_r by lia. ring.
Qed.

Lemma pow2_xI (q p : positive) :
  Zpos q * 2 ^ Zpos p~1 = Zpos (q * 2 ^ p * 2 ^ p)~0.
Proof.
  rewrite (Pos2Z.inj_xO (q * 2 ^ p * 2 ^ p)), !Pos2Z.inj_mul, !Pos2Z.inj_pow.
  replace (Zpos p~1) with (Zpos p + Zpos p + 1) by lia.
  rewrite !Z.pow_add_r by lia. change (2 ^ 1) with 2. ring.
Qed.

Lemma iter_shr_1_exact (p : positive) : forall q : positive,
  iter_pos shr_1 p (Build_shr_record (Zpos q * 2 ^ Zpos p) false false)
  = Build_shr_record (Zpos q) false false.
Proof.
  induction p as [p IH|p IH|]; intros q.
  - rewrite pow2_xI. cbn [iter_pos shr_1 orb].
    rewrite Pos2Z.inj_mul, Pos2Z.inj_pow, IH.
    rewrite Pos2Z.inj_mul, Pos2Z.inj_pow. apply IH.
  - rewrite pow2_xO. cbn [iter_pos].
    rewrite IH, Pos2Z.inj_mul, Pos2Z.inj_pow. apply IH.
  - rewrite Z.pow_1_r, Z.mul_comm. reflexivity.
Qed.

Lemma shr_exact (q : positive) (e j : Z) :
  0 <= j ->
  shr (Build_shr_record (Zpos q * 2 ^ j) false false) e j
  = (Build_shr_record (Zpos q) false false, e + j).
Proof.
  intros Hj. destruct j as [|p|p]; try lia.
  - rewrite Z.pow_0_r, Z.mul_1_r, Z.add_0_r. reflexivity.
  - unfold shr. rewrite iter_shr_1_exact. reflexivity.
Qed.

(** Rounding a value that is already a canonical binary64 number. *)
Lemma binary_round_aux_exact (s : bool) (m : positive) (e j : Z) :
  bounded prec emax m e = true -> 0 <= j ->
  binary_round_aux prec emax s (Zpos m * 2 ^ j) (e - j) loc_Exact
  = S754_finite s m e.
Proof.
  intros Hb Hj. unfold bounded, canonical_mantissa in Hb.
  apply andb_true_iff in Hb as [Hc He]. apply Z.eqb_eq in Hc.
  unfold binary_round_aux, shr_fexp.
  rewrite Zdigits2_mul_pow2 by assumption.
  replace (Zpos (digits2_pos m) + j + (e - j)) with (Zpos (digits2_pos m) + e) by lia.
  rewrite Hc. cbn [shr_record_of_loc].
  replace (e - (e - j)) with j by lia.
  rewrite shr_exact by assumption.
  replace (e - j + j) with e by lia.
  cbn [shr_m loc_of_shr_record round_nearest_even Zdigits2].
  rewrite Hc, Z.sub_diag. cbn [shr shr_m]. rewrite He. reflexivity.
Qed.

Lemma new_location_zero (d : Z) : new_location d 0 = loc_Exact.
Proof.
  unfold new_location. destruct (Z.even d); reflexivity.
Qed.

(** The quotient of two integers whose value is a canonical binary64
    number is that number: no rounding takes place. *)
Lemma SFdiv_exact (s : bool) (m : positive) (e : Z) (n d : positive) :
  bounded prec emax m e = true ->
  Zpos n * 2 ^ Z.max 0 (- e) = Zpos m * 2 ^ Z.max 0 e * Zpos d ->
  SFdiv prec emax (S754_finite s n 0) (S754_finite false d 0)
  = S754_finite s m e.
Proof.
  intros Hb Hv.
  assert (Hc : fexp prec emax (Zpos (digits2_pos m) + e) = e).
  { unfold bounded, canonical_mantissa in Hb.
    apply andb_true_iff in Hb as [Hc _]. now apply Z.eqb_eq in Hc. }
  unfold SFdiv, SFdiv_core_binary. simpl Zdigits2.
  rewrite !Z.add_0_r, Z.sub_diag, Z.sub_0_l.
  set (e' := Z.min (fexp prec emax (Zpos (digits2_pos n) - Zpos (digits2_pos d))) 0).
  assert (He' : e' <= e).
  { destruct (Z.le_gt_cases 0 e) as [H0|H0]; [subst e'; lia|].
    rewrite Z.max_r, Z.max_l, Z.pow_0_r, Z.mul_1_r in Hv by lia.
    pose proof (digits2_bounds n) as [Hn _].
    pose proof (digits2_bounds m) as [_ Hm].
    pose proof (digits2_bounds d) as [_ Hd].
    assert (Hlt : 2 ^ (Zpos (digits2_pos n) - 1 - e)
                  < 2 ^ (Zpos (digits2_pos m) + Zpos (digits2_pos d))).
    { rewrite Z.pow_add_r by lia.
      replace (Zpos (digits2_pos n) - 1 - e) with ((Zpos (digits2_pos n) - 1) + - e) by lia.
      rewrite Z.pow_add_r by lia.
      assert (0 < 2 ^ (- e)) by (apply Z.pow_pos_nonneg; lia).
      nia. }
    apply Z.pow_lt_mono_r_iff in Hlt; try lia.
    rewrite <- Hc. subst e'.
    etransitivity; [apply Z.le_min_l|]. apply fexp_mono. lia. }
  assert (He0 : e' <= 0) by (subst e'; lia).
  assert (Hq : match - e' with
               | Z0 => Zpos n
               | Zpos _ => Z.shiftl (Zpos n) (- e')
               | Zneg _ => 0
               end = Zpos m * 2 ^ (e - e') * Zpos d).
  { assert (Hs : Zpos n * 2 ^ (- e') = Zpos m * 2 ^ (e - e') * Zpos d).
    { destruct (Z.le_gt_cases 0 e) as [H0|H0].
      - rewrite Z.max_l, Z.max_r, Z.pow_0_r, Z.mul_1_r in Hv by lia.
        rewrite Hv. replace (e - e') with (e + - e') by lia.
        rewrite Z.pow_add_r by lia. ring.
      - rewrite Z.max_r, Z.max_l, Z.pow_0_r, Z.mul_1_r in Hv by lia.
        replace (- e') with (- e + (e - e')) by lia.
        rewrite Z.pow_add_r by lia. rewrite Z.mul_assoc, Hv. ring. }
    destruct (- e') as [|p|p] eqn:Ep; try lia.
    rewrite Z.shiftl_mul_pow2 by lia. exact Hs. }
  rewrite Hq.
  assert (Hdiv : Z.div_eucl (Zpos m * 2 ^ (e - e') * Zpos d) (Zpos d)
                 = (Zpos m * 2 ^ (e - e'), 0)).
  { pose proof (Z.div_mul (Zpos m * 2 ^ (e - e')) (Zpos d)) as Hd.
    pose proof (Z.mod_mul (Zpos m * 2 ^ (e - e')) (Zpos d)) as Hm.
    unfold Z.div, Z.modulo in Hd, Hm.
    destruct (Z.div_eucl (Zpos m * 2 ^ (e - e') * Zpos d) (Zpos d)) as [q r].
    rewrite Hd, Hm by lia. reflexivity. }
  rewrite Hdiv, new_location_zero, xorb_false_r.
  replace e' with (e - (e - e')) at 2 by lia.
  apply binary_round_aux_exact; [assumption | lia].
Qed.

(** ** Rounding to zero *)

(** One step of [shr] on a non-negative mantissa: halve it, keep the bit
    that falls off as round bit, and accumulate the previous round bit in
    the sticky bit. *)
Lemma shr_1_spec (m : Z) (r s : bool) :
  0 <= m ->
  shr_1 (Build_shr_record m r s) = Build_shr_record (m / 2) (Z.odd m) (r || s).
Proof.
  intros Hm. destruct m as [|[p|p|]|p]; try lia; cbn [shr_1 Z.odd].
  - reflexivity.
  - rewrite Pos2Z.inj_xI, Z.mul_comm, Z.div_add_l by lia.
    now rewrite Z.add_0_r.
  - rewrite Pos2Z.inj_xO, Z.mul_comm, Z.div_mul by lia. reflexivity.
  - reflexivity.
Qed.

Lemma iter_pos_nat {A : Type} (f : A -> A) (p : positive) : forall x,
  iter_pos f p x = Nat.iter (Pos.to_nat p) f x.
Proof.
  induction p as [p IH|p IH|]; intros x; cbn [iter_pos].
  - rewrite !IH, Pos2Nat.inj_xI.
    replace (S (2 * Pos.to_nat p))%nat
      with (Pos.to_nat p + (Pos.to_nat p + 1))%nat by lia.
    rewrite !Nat.iter_add. reflexivity.
  - rewrite !IH, Pos2Nat.inj_xO.
    replace (2 * Pos.to_nat p)%nat
      with (Pos.to_nat p + Pos.to_nat p)%nat by lia.
    rewrite Nat.iter_add. reflexivity.
  - reflexivity.
Qed.

(** The state after [n + 1] steps from an exact mantissa [m]. *)
Lemma iter_shr_1_spec (m : Z) (n : nat) :
  0 <= m ->
  Nat.iter (S n) shr_1 (Build_shr_record m false false)
  = Build_shr_record (m / 2 ^ Z.of_nat (S n))
                     (Z.odd (m / 2 ^ Z.of_nat n))
                     (negb (m mod 2 ^ Z.of_nat n =? 0)).
Proof.
  intros Hm. induction n as [|n IH].
  - cbn [Nat.iter]. rewrite shr_1_spec by assumption.
    change (2 ^ Z.of_nat 1) with 2. change (2 ^ Z.of_nat 0) with 1.
    now rewrite Z.div_1_r, Z.mod_1_r.
  - change (Nat.iter (S (S n)) shr_1 ?x) with (shr_1 (Nat.iter (S n) shr_1 x)).
    rewrite IH.
    assert (H2 : 0 < 2 ^ Z.of_nat n) by (apply Z.pow_pos_nonneg; lia).
    assert (E : 2 ^ Z.of_nat (S n) = 2 ^ Z.of_nat n * 2)
      by (rewrite Nat2Z.inj_succ, Z.pow_succ_r; lia).
    rewrite shr_1_spec by (apply Z.div_pos; lia).
    f_equal.
    + rewrite Z.div_div by lia.
      f_equal. rewrite (Nat2Z.inj_succ (S n)), Z.pow_succ_r; lia.
    + rewrite E, Z.rem_mul_r by lia.
      rewrite Zodd_mod.
      pose proof (Z.mod_pos_bound m (2 ^ Z.of_nat n) H2).
      pose proof (Z.mod_pos_bound (m / 2 ^ Z.of_nat n) 2 ltac:(lia)).
      destruct (Z.eqb_spec ((m / 2 ^ Z.of_nat n) mod 2) 1),
               (Z.eqb_spec (m mod 2 ^ Z.of_nat n) 0),
               (Z.eqb_spec (m mod 2 ^ Z.of_nat n
                            + 2 ^ Z.of_nat n * ((m / 2 ^ Z.of_nat n) mod 2)) 0);
        simpl; try reflexivity; nia.
Qed.


Lemma shr_pos (m e n : Z) :
  0 <= m -> 0 < n ->
  shr (Build_shr_record m false false) e n
  = (Build_shr_record (m / 2 ^ n) (Z.odd (m / 2 ^ (n - 1)))
                      (negb (m mod 2 ^ (n - 1) =? 0)), e + n).
Proof.
  intros Hm Hn. destruct n as [|p|p]; try lia. unfold shr.
  rewrite iter_pos_nat.
  destruct (Pos.to_nat p) as [|k] eqn:Ek; [lia|].
  rewrite iter_shr_1_spec by assumption.
  replace (Z.of_nat (S k)) with (Zpos p) by lia.
  replace (Z.of_nat k) with (Zpos p - 1) by lia. reflexivity.
Qed.

Lemma shr_nonpos (mrs : shr_record) (e n : Z) :
  n <= 0 -> shr mrs e n = (mrs, e).
Proof. intros Hn. destruct n; try lia; reflexivity. Qed.

(** Rounding to nearest even gives zero for the mantissa [q] with round bit
    [r] and sticky bit [s] only from [0], [0 + 1/4] and [0 + 1/2]. *)
Lemma round_nearest_even_zero (q : Z) (r s : bool) :
  0 <= q ->
  0 <= round_nearest_even q (loc_of_shr_record (Build_shr_record q r s)) /\
  (round_nearest_even q (loc_of_shr_record (Build_shr_record q r s)) = 0
   <-> q = 0 /\ r && s = false).
Proof.
  intros Hq. destruct r, s; cbn [loc_of_shr_record round_nearest_even andb];
    try destruct (Z.even q) eqn:E; try (split; [lia|]; split; [lia|tauto]);
    split; try lia; split; try lia; try (intros []; discriminate).
  intros [-> _]. discriminate.
Qed.

(** Whether a positive exact value [mx * 2^ex] rounds to zero: it does when
    it is at most half the least positive binary64 number, [2^(-1075)].
    It never rounds to a NaN. *)
Lemma binary_round_aux_zero (s : bool) (mx : positive) (ex : Z) :
  match binary_round_aux prec emax s (Zpos mx) ex loc_Exact with
  | S754_zero _ => Zpos mx <= 2 ^ (-1075 - ex)
  | S754_nan => False
  | _ => 2 ^ (-1075 - ex) < Zpos mx
  end.
Proof.
  pose proof (digits2_bounds mx) as [Hlo Hhi].
  unfold binary_round_aux, shr_fexp. cbn [shr_record_of_loc Zdigits2].
  set (d := Zpos (digits2_pos mx)) in *.
  assert (Hf : fexp prec emax (d + ex) = Z.max (d + ex - 53) (-1074))
    by reflexivity.
  set (n1 := fexp prec emax (d + ex) - ex).
  destruct (Z.le_gt_cases n1 0) as [Hn|Hn].
  - (* no shift: the mantissa is kept *)
    rewrite shr_nonpos by assumption.
    cbn [shr_m loc_of_shr_record round_nearest_even Zdigits2].
    fold d. fold n1. rewrite shr_nonpos by assumption. cbn [shr_m].
    assert (Hz : 2 ^ (-1075 - ex) = 0) by (apply Z.pow_neg_r; lia).
    destruct (ex <=? emax - prec); lia.
  - rewrite shr_pos by lia.
    replace (ex + n1) with (fexp prec emax (d + ex)) by (subst n1; lia).
    set (q := Zpos mx / 2 ^ n1).
    set (r := Z.odd (Zpos mx / 2 ^ (n1 - 1))).
    set (t := negb (Zpos mx mod 2 ^ (n1 - 1) =? 0)).
    assert (Hq : 0 <= q) by (apply Z.div_pos; [lia | apply Z.pow_pos_nonneg; lia]).
    cbn [shr_m].
    destruct (round_nearest_even_zero q r t Hq) as [Hm2 Hz].
    set (m2 := round_nearest_even q (loc_of_shr_record (Build_shr_record q r t))) in *.
    (* when the rounded mantissa is zero *)
    assert (Hiff : m2 = 0 <-> Zpos mx <= 2 ^ (-1075 - ex)).
    { rewrite Hz. subst q r t.
      assert (HP : 0 < 2 ^ (n1 - 1)) by (apply Z.pow_pos_nonneg; lia).
      assert (E2 : 2 ^ n1 = 2 ^ (n1 - 1) * 2).
      { replace n1 with (n1 - 1 + 1) at 1 by lia.
        rewrite Z.pow_add_r by lia. reflexivity. }
      pose proof (Z.div_mod (Zpos mx) (2 ^ (n1 - 1)) ltac:(lia)) as Hdm.
      pose proof (Z.mod_pos_bound (Zpos mx) (2 ^ (n1 - 1)) HP) as Hb.
      assert (Ha : 0 <= Zpos mx / 2 ^ (n1 - 1)) by (apply Z.div_pos; lia).
      rewrite E2, <- Z.div_div by lia.
      set (a := Zpos mx / 2 ^ (n1 - 1)) in *.
      set (b := Zpos mx mod 2 ^ (n1 - 1)) in *.
      assert (Hmx : Zpos mx <= 2 ^ (n1 - 1) <-> a / 2 = 0 /\ Z.odd a && negb (b =? 0) = false).
      { rewrite Zodd_mod.
        pose proof (Z.div_mod a 2 ltac:(lia)) as Ha2.
        pose proof (Z.mod_pos_bound a 2 ltac:(lia)) as Hb2.
        assert (Ha3 : 0 <= a / 2) by (apply Z.div_pos; lia).
        destruct (Z.eqb_spec (a mod 2) 1), (Z.eqb_spec b 0); cbn [negb andb];
          split; try (intros [? ?]); try split; try discriminate;
          try reflexivity; try nia. }
      rewrite <- Hmx.
      destruct (Z.le_gt_cases (-1074) (d + ex - 53)) as [Hnorm|Hsub].
      - (* normal range: neither bound can hold *)
        assert (Hn1 : n1 = d - 53) by (subst n1; lia).
        assert (H1 : 2 ^ (n1 - 1) < 2 ^ (d - 1))
          by (apply Z.pow_lt_mono_r; lia).
        assert (H2 : 2 ^ (-1075 - ex) < 2 ^ (d - 1)).
        { destruct (Z.le_gt_cases 0 (-1075 - ex)).
          - apply Z.pow_lt_mono_r; lia.
          - rewrite Z.pow_neg_r by lia. apply Z.pow_pos_nonneg; lia. }
        lia.
      - replace (n1 - 1) with (-1075 - ex) by (subst n1; lia). tauto. }
    destruct (Z.eq_dec m2 0) as [E0|E0].
    + (* the zero mantissa stays zero *)
      rewrite E0. cbn [Zdigits2].
      set (n2 := fexp prec emax (0 + fexp prec emax (d + ex)) - fexp prec emax (d + ex)).
      assert (Hs : shr_m (fst (shr (Build_shr_record 0 false false)
                                   (fexp prec emax (d + ex)) n2)) = 0).
      { destruct (Z.le_gt_cases n2 0).
        - now rewrite shr_nonpos.
        - rewrite shr_pos by lia. reflexivity. }
      destruct (shr _ _ n2) as [mrs e2]. cbn [fst] in Hs. rewrite Hs.
      apply Hiff, E0.
    + (* a positive mantissa stays positive *)
      assert (Hpos : 0 < m2) by lia.
      destruct m2 as [|p2|p2] eqn:Em2; try lia. cbn [Zdigits2].
      pose proof (digits2_bounds p2) as [Hlo2 _].
      set (d2 := Zpos (digits2_pos p2)) in *.
      set (e1 := fexp prec emax (d + ex)) in *.
      assert (Hf2 : fexp prec emax (d2 + e1) = Z.max (d2 + e1 - 53) (-1074))
        by reflexivity.
      set (n2 := fexp prec emax (d2 + e1) - e1).
      assert (Hs : 0 < shr_m (fst (shr (Build_shr_record (Zpos p2) false false)
                                       e1 n2))).
      { destruct (Z.le_gt_cases n2 0).
        - rewrite shr_nonpos by assumption. cbn. lia.
        - rewrite shr_pos by lia. cbn [fst shr_m].
          apply Z.div_str_pos. split; [apply Z.pow_pos_nonneg; lia|].
          etransitivity; [|exact Hlo2].
          apply Z.pow_le_mono_r; subst n2; lia. }
      destruct (shr _ e1 n2) as [mrs e2]. cbn [fst] in Hs.
      assert (Hnz : ~ Zpos mx <= 2 ^ (-1075 - ex))
        by (intros H; apply Hiff in H; lia).
      destruct (shr_m mrs) as [|p3|p3]; try lia.
      destruct (e2 <=? emax - prec); lia.
Qed.

End Rounding.

(** * Properties of the comparison operators *)

Section DoubleFacts.

Local Open Scope float_scope.

Lemma Prim2SF_zero : Prim2SF 0 = S754_zero false.
Proof. reflexivity. Qed.

Lemma Double_ne_negb (a b : float) : Double.ne a b = negb (Double.eq a b).
Proof.
  unfold Double.ne, Double.eq. rewrite compare_spec, eqb_spec. unfold SFeqb.
  destruct (SFcompare (Prim2SF a) (Prim2SF b)) as [[]|]; reflexivity.
Qed.

Lemma Double_gt_lt (a b : float) : Double.gt a b = Double.lt b a.
Proof.
  unfold Double.gt, Double.lt. rewrite compare_spec, ltb_spec. unfold SFltb.
  rewrite (SFcompare_antisym (Prim2SF a) (Prim2SF b)).
  destruct (SFcompare (Prim2SF a) (Prim2SF b)) as [[]|]; reflexivity.
Qed.

Lemma Double_eq_refl (a : float) : Double.eq a a = negb (is_nan a).
Proof. unfold Double.eq, is_nan. now rewrite negb_involutive. Qed.

Lemma Double_lt_irrefl (a : float) : Double.lt a a = false.
Proof. unfold Double.lt. rewrite ltb_spec. apply SFltb_irrefl. Qed.

Lemma Double_lt_asym (a b : float) :
  Double.lt a b = true -> Double.lt b a = false.
Proof. unfold Double.lt. rewrite !ltb_spec. apply SFltb_asym. Qed.

Lemma is_nan_spec (a : float) : is_nan a = true <-> Prim2SF a = S754_nan.
Proof.
  unfold is_nan. rewrite eqb_spec, SFeqb_refl.
  destruct (Prim2SF a); simpl; split; congruence.
Qed.

Lemma is_nan_false (a : float) : is_nan a = false <-> Prim2SF a <> S754_nan.
Proof.
  rewrite <- is_nan_spec. destruct (is_nan a); split; congruence.
Qed.

Lemma is_infinity_spec (a : float) :
  is_infinity a = true <-> exists s, Prim2SF a = S754_infinity s.
Proof.
  unfold is_infinity. rewrite eqb_spec, abs_spec.
  change (Prim2SF infinity) with (S754_infinity false).
  unfold SFeqb. destruct (Prim2SF a) as [s|s| |s m e]; simpl; split;
    try discriminate; try (intros [s' H]; discriminate); eauto.
Qed.

Lemma is_finite_spec (a : float) :
  is_finite a = true <->
  match Prim2SF a with
  | S754_zero _ | S754_finite _ _ _ => True
  | _ => False
  end.
Proof.
  unfold is_finite. rewrite negb_true_iff, orb_false_iff.
  split.
  - intros [Hn Hi]. apply is_nan_false in Hn.
    destruct (Prim2SF a) as [s|s| |s m e] eqn:E; auto.
    assert (is_infinity a = true) by (apply is_infinity_spec; eauto).
    congruence.
  - intros H. split.
    + apply is_nan_false. destruct (Prim2SF a); auto; discriminate.
    + destruct (is_infinity a) eqn:E; auto.
      apply is_infinity_spec in E as [s E]. rewrite E in H. contradiction.
Qed.

Lemma Double_add_comm (a b : float) : a + b = b + a.
Proof. apply Prim2SF_inj. rewrite !add_spec. apply SFadd_comm. Qed.

Lemma Double_max_idem (a : float) : Double.max a a = a.
Proof. unfold Double.max. now destruct (Double.lt a a). Qed.

(** [std::max(a, b)] is the maximum of [a] and [b] exactly when neither is
    a NaN: it is [a] when [a] or [b] is one. *)
Lemma Double_max_is_max (a b : float) :
  is_max_of (Double.max a b) a b <-> is_nan a = false /\ is_nan b = false.
Proof.
  unfold is_max_of, Double.max, Double.lt.
  rewrite ltb_spec, !is_nan_false. split.
  - intros (_ & Ha & Hb).
    destruct (SFltb (Prim2SF a) (Prim2SF b)) eqn:E;
      rewrite leb_spec in Ha, Hb; split; intros N;
      try (rewrite N in E; unfold SFltb in E;
           destruct (Prim2SF a); discriminate);
      try (rewrite SFleb_nan in Ha by auto; discriminate);
      rewrite SFleb_nan in Hb by auto; discriminate.
  - intros [Ha Hb].
    destruct (SFltb (Prim2SF a) (Prim2SF b)) eqn:E;
      (split; [auto|]); rewrite !leb_spec; split.
    + now apply SFltb_leb.
    + rewrite SFleb_refl. destruct (Prim2SF b); congruence.
    + rewrite SFleb_refl. destruct (Prim2SF a); congruence.
    + now apply SFleb_of_not_ltb.
Qed.

(** Comparisons with a NaN are false. *)
Lemma Double_lt_nan (a b : float) :
  is_nan a = true \/ is_nan b = true -> Double.lt a b = false.
Proof.
  unfold Double.lt. rewrite ltb_spec, !is_nan_spec. unfold SFltb.
  intros [->| ->]; [reflexivity | now destruct (Prim2SF a)].
Qed.

Lemma Double_eq_nan (a b : float) :
  is_nan a = true \/ is_nan b = true -> Double.eq a b = false.
Proof.
  unfold Double.eq. rewrite eqb_spec, !is_nan_spec. unfold SFeqb.
  intros [->| ->]; [reflexivity | now destruct (Prim2SF a)].
Qed.

(** [std::max] does not depend on the order of its arguments, up to [==],
    exactly when no argument is a NaN. *)
Lemma Double_max_comm (a b : float) :
  Double.eq (Double.max b a) (Double.max a b)
  = negb (is_nan a || is_nan b).
Proof.
  destruct (is_nan a) eqn:Ha; [|destruct (is_nan b) eqn:Hb]; cbn [orb negb].
  - unfold Double.max at 2. rewrite (Double_lt_nan a b) by auto.
    apply Double_eq_nan. auto.
  - unfold Double.max. rewrite (Double_lt_nan a b), (Double_lt_nan b a) by auto.
    apply Double_eq_nan. auto.
  - unfold Double.max.
    destruct (Double.lt a b) eqn:Eab.
    + rewrite (Double_lt_asym _ _ Eab), Double_eq_refl, Hb. reflexivity.
    + destruct (Double.lt b a) eqn:Eba.
      * rewrite Double_eq_refl, Ha. reflexivity.
      * unfold Double.lt in Eab, Eba. unfold Double.eq.
        rewrite ltb_spec in Eab, Eba. rewrite eqb_spec.
        apply is_nan_false in Ha, Hb.
        unfold SFltb in Eab, Eba. unfold SFeqb.
        rewrite (SFcompare_antisym (Prim2SF b) (Prim2SF a)) in Eab.
        destruct (SFcompare (Prim2SF b) (Prim2SF a)) as [[]|] eqn:E;
          simpl in *; try congruence.
        destruct (Prim2SF a), (Prim2SF b); simpl in E; congruence.
Qed.

(** Adding or subtracting [+0.0] gives back a value that compares equal,
    unless the value is a NaN. *)
Lemma Double_add_zero (a : float) : Double.eq a (a + 0) = negb (is_nan a).
Proof.
  unfold Double.eq. rewrite <- Double_eq_refl. unfold Double.eq.
  rewrite !eqb_spec, add_spec, Prim2SF_zero.
  destruct (Prim2SF a) as [[]|[]| |s m e]; reflexivity.
Qed.

Lemma Double_sub_zero (a : float) : Double.eq a (a - 0) = negb (is_nan a).
Proof.
  unfold Double.eq. rewrite <- Double_eq_refl. unfold Double.eq.
  rewrite !eqb_spec, sub_spec, Prim2SF_zero.
  destruct (Prim2SF a) as [[]|[]| |s m e]; reflexivity.
Qed.

Lemma is_finite_SF (a : float) :
  is_finite a =
  match Prim2SF a with
  | S754_zero _ | S754_finite _ _ _ => true
  | _ => false
  end.
Proof.
  pose proof (is_finite_spec a) as H.
  destruct (is_finite a), (Prim2SF a); try reflexivity;
    try (exfalso; now apply H); now destruct (proj2 H I).
Qed.

Lemma Double_eq_zero_SF (a : float) :
  Double.eq a 0 = match Prim2SF a with S754_zero _ => true | _ => false end.
Proof.
  unfold Double.eq. rewrite eqb_spec, Prim2SF_zero.
  destruct (Prim2SF a) as [[]|[]| |[] m e]; reflexivity.
Qed.

(** When a product compares equal to zero. *)
Lemma Double_mul_eq_zero (a b : float) :
  Double.eq (a * b) 0 =
  is_finite a && is_finite b &&
  (Double.eq a 0 || Double.eq b 0 || product_underflows a b).
Proof.
  rewrite !is_finite_SF, !Double_eq_zero_SF, mul_spec.
  unfold product_underflows.
  destruct (Prim2SF a) as [sa|sa| |sa ma ea], (Prim2SF b) as [sb|sb| |sb mb eb];
    try reflexivity.
  cbn [andb orb]. unfold SF64mul, SFmul.
  pose proof (binary_round_aux_zero (xorb sa sb) (ma * mb) (ea + eb)) as H.
  destruct (binary_round_aux prec emax (xorb sa sb) (Zpos (ma * mb))
                             (ea + eb) loc_Exact);
    try contradiction; symmetry;
    [apply Z.leb_le | apply Z.leb_gt | apply Z.leb_gt]; exact H.
Qed.

(** The sum of two finite numbers is not a NaN. *)
Lemma Double_add_finite (a b : float) :
  is_finite a = true -> is_finite b = true -> is_nan (a + b) = false.
Proof.
  rewrite !is_finite_SF. intros Ha Hb. apply is_nan_false.
  rewrite add_spec. unfold SF64add, SFadd.
  destruct (Prim2SF a) as [sa|sa| |sa ma ea], (Prim2SF b) as [sb|sb| |sb mb eb];
    try discriminate; try (destruct sa, sb; discriminate).
  unfold binary_normalize, binary_round.
  match goal with
  | |- match ?z with _ => _ end <> _ => destruct z as [|p|p]
  end; [discriminate| |];
    match goal with
    | |- (let '(_, _) := ?x in _) <> _ => destruct x as [mz ez]
    end;
    match goal with
    | |- binary_round_aux _ _ ?sg (Zpos ?m) ?e _ <> _ =>
        pose proof (binary_round_aux_zero sg m e) as H;
        destruct (binary_round_aux prec emax sg (Zpos m) e loc_Exact);
        [discriminate | discriminate | contradiction | discriminate]
    end.
Qed.

(** A value that is zero or below zero is not above zero. *)
Lemma Double_gt_zero_false (a : float) :
  Double.eq a 0 = true \/ Double.lt a 0 = true -> Double.gt a 0 = false.
Proof.
  rewrite Double_gt_lt. intros [H|H].
  - unfold Double.eq in H. unfold Double.lt. rewrite eqb_spec in H.
    rewrite ltb_spec. unfold SFeqb in H. unfold SFltb.
    rewrite (SFcompare_antisym (Prim2SF a) (Prim2SF 0)).
    destruct (SFcompare (Prim2SF a) (Prim2SF 0)) as [[]|]; simpl; congruence.
  - now apply Double_lt_asym.
Qed.

End DoubleFacts.

(** * The operators and predicates of [Size] *)

Section SizeFacts.

Local Open Scope float_scope.

Lemma Size_eq_refl (s : Size) : Size.eq s s = negb (has_nan s).
Proof.
  unfold Size.eq, has_nan. rewrite !Double_eq_refl. now rewrite negb_orb.
Qed.

Lemma Size_add_comm (s1 s2 : Size) : Size.add s1 s2 = Size.add s2 s1.
Proof.
  unfold Size.add. f_equal; apply Double_add_comm.
Qed.

End SizeFacts.

(** * Digits and numerals *)

Section TextFacts.

Import Text.
Local Open Scope Z_scope.

Lemma digit_val_char (d : Z) :
  0 <= d < 10 -> digit_val (digit_char d) = Some d.
Proof.
  intros H.
  assert (E : d = 0 \/ d = 1 \/ d = 2 \/ d = 3 \/ d = 4 \/
              d = 5 \/ d = 6 \/ d = 7 \/ d = 8 \/ d = 9) by lia.
  repeat (destruct E as [->|E]; [reflexivity|]). subst. reflexivity.
Qed.

Lemma is_digit_char (d : Z) : 0 <= d < 10 -> is_digit (digit_char d) = true.
Proof. intros H. unfold is_digit. now rewrite digit_val_char. Qed.

Lemma digits_val_app (l1 l2 : list ascii) : forall acc,
  digits_val acc (l1 ++ l2) =
  match digits_val acc l1 with
  | Some a => digits_val a l2
  | None => None
  end.
Proof.
  induction l1 as [|c l1 IH]; intros acc; simpl; [reflexivity|].
  destruct (digit_val c); [apply IH | reflexivity].
Qed.

Lemma digits_val_snoc (l : list ascii) (n : Z) :
  0 <= n -> digits_val 0 l = Some (n / 10) ->
  digits_val 0 (l ++ [digit_char (n mod 10)]) = Some n.
Proof.
  intros Hn H. rewrite digits_val_app, H. cbn [digits_val].
  rewrite digit_val_char by (apply Z.mod_pos_bound; lia).
  f_equal. pose proof (Z.div_mod n 10). lia.
Qed.

Lemma digits_val_fixed (k : nat) : forall n,
  0 <= n < 10 ^ Z.of_nat k -> digits_val 0 (fixed_digits k n) = Some n.
Proof.
  induction k as [|k IH]; intros n Hn.
  - simpl in *. f_equal. lia.
  - cbn [fixed_digits]. apply digits_val_snoc; [lia|]. apply IH.
    rewrite Nat2Z.inj_succ, Z.pow_succ_r in Hn by lia.
    split; [apply Z.div_pos; lia | apply Z.div_lt_upper_bound; lia].
Qed.

Lemma length_fixed_digits (k : nat) : forall n,
  List.length (fixed_digits k n) = k.
Proof.
  induction k as [|k IH]; intros n; simpl; [reflexivity|].
  rewrite length_app, IH. simpl. lia.
Qed.

Lemma digits_val_fuel (fuel : nat) : forall n,
  0 <= n < 10 ^ Z.of_nat fuel -> digits_val 0 (digits_fuel fuel n) = Some n.
Proof.
  induction fuel as [|f IH]; intros n Hn.
  - simpl in *. f_equal. lia.
  - cbn [digits_fuel]. apply digits_val_snoc; [lia|].
    destruct (Z.ltb_spec n 10) as [H|H].
    + simpl. f_equal. symmetry. apply Z.div_small. lia.
    + apply IH. rewrite Nat2Z.inj_succ, Z.pow_succ_r in Hn by lia.
      split; [apply Z.div_pos; lia | apply Z.div_lt_upper_bound; lia].
Qed.

Lemma fixed_digits_all (k : nat) : forall n,
  Forall (fun c => is_digit c = true) (fixed_digits k n).
Proof.
  induction k as [|k IH]; intros n; simpl; [constructor|].
  apply Forall_app. split; [apply IH|].
  repeat constructor. apply is_digit_char, Z.mod_pos_bound. lia.
Qed.

Lemma digits_fuel_all (fuel : nat) : forall n,
  Forall (fun c => is_digit c = true) (digits_fuel fuel n).
Proof.
  induction fuel as [|f IH]; intros n; simpl; [constructor|].
  apply Forall_app. split.
  - destruct (n <? 10); [constructor | apply IH].
  - repeat constructor. apply is_digit_char, Z.mod_pos_bound. lia.
Qed.

Lemma print_nat_all (n : Z) : Forall (fun c => is_digit c = true) (print_nat n).
Proof. apply digits_fuel_all. Qed.

Lemma print_nat_nonempty (n : Z) : print_nat n <> [].
Proof.
  unfold print_nat. cbn [digits_fuel]. intros H.
  apply app_eq_nil in H as [_ H]. discriminate.
Qed.

Lemma digits_val_print_nat (n : Z) :
  0 <= n -> digits_val 0 (print_nat n) = Some n.
Proof.
  intros Hn. apply digits_val_fuel. split; [assumption|].
  rewrite Nat2Z.inj_succ, Z2Nat.id by apply Z.log2_nonneg.
  destruct (Z.eq_dec n 0) as [->|Hz]; [reflexivity|].
  apply Z.lt_le_trans with (2 ^ Z.succ (Z.log2 n)).
  - apply Z.log2_spec. lia.
  - apply Z.pow_le_mono_l. pose proof (Z.log2_nonneg n). lia.
Qed.

Lemma parse_digits_nonempty (l : list ascii) :
  l <> [] -> parse_digits l = digits_val 0 l.
Proof. destruct l; [congruence | reflexivity]. Qed.

Lemma parse_digits_print_nat (n : Z) :
  0 <= n -> parse_digits (print_nat n) = Some n.
Proof.
  intros Hn. rewrite parse_digits_nonempty by apply print_nat_nonempty.
  now apply digits_val_print_nat.
Qed.

Lemma split_at_none (sep : ascii) (l : list ascii) :
  ~ In sep l -> split_at sep l = None.
Proof.
  induction l as [|c l IH]; simpl; intros H; [reflexivity|].
  destruct (Ascii.eqb_spec c sep) as [->|Hc]; [tauto|].
  rewrite IH by tauto. reflexivity.
Qed.

Lemma split_at_app (sep : ascii) (l1 l2 : list ascii) :
  ~ In sep l1 -> split_at sep (l1 ++ sep :: l2) = Some (l1, l2).
Proof.
  induction l1 as [|c l1 IH]; simpl; intros H.
  - now rewrite Ascii.eqb_refl.
  - destruct (Ascii.eqb_spec c sep) as [->|Hc]; [tauto|].
    rewrite IH by tauto. reflexivity.
Qed.

Lemma not_in_digits (c : ascii) (l : list ascii) :
  is_digit c = false -> Forall (fun c => is_digit c = true) l -> ~ In c l.
Proof.
  intros Hc Hl Hin. rewrite Forall_forall in Hl. apply Hl in Hin. congruence.
Qed.

Lemma strip_twos_spec (m : positive) : forall e m' e',
  strip_twos m e = (m', e') ->
  exists j, 0 <= j /\ e' = e + j /\ Zpos m = Zpos m' * 2 ^ j.
Proof.
  induction m as [m IH|m IH|]; intros e m' e' H; simpl in H.
  - inversion H; subst. exists 0. rewrite Z.pow_0_r. lia.
  - apply IH in H as (j & Hj & -> & E). exists (j + 1).
    rewrite Z.pow_add_r, Pos2Z.inj_xO, E by lia. lia.
  - inversion H; subst. exists 0. rewrite Z.pow_0_r. lia.
Qed.

(** ** Printing, then parsing *)

Lemma parse_unsigned_int (n : Z) :
  0 <= n -> parse_unsigned (print_nat n) = Some (n, O).
Proof.
  intros Hn. unfold parse_unsigned.
  rewrite split_at_none
    by (apply not_in_digits; [reflexivity | apply print_nat_all]).
  now rewrite parse_digits_print_nat.
Qed.

Lemma parse_unsigned_frac (i f : Z) (k : nat) :
  0 <= i -> 0 <= f < 10 ^ Z.of_nat k -> (0 < k)%nat ->
  parse_unsigned (print_nat i ++ "."%char :: fixed_digits k f)
  = Some (i * 10 ^ Z.of_nat k + f, k).
Proof.
  intros Hi Hf Hk. unfold parse_unsigned.
  rewrite split_at_app
    by (apply not_in_digits; [reflexivity | apply print_nat_all]).
  rewrite parse_digits_print_nat by assumption.
  rewrite parse_digits_nonempty, digits_val_fixed by
    (try assumption; intros E; apply (f_equal (@List.length ascii)) in E;
     rewrite length_fixed_digits in E; simpl in E; lia).
  now rewrite length_fixed_digits.
Qed.

Lemma parse_decimal_sign (s : bool) (c : ascii) (r : list ascii) :
  is_digit c = true ->
  parse_decimal (print_sign s ++ c :: r)
  = option_map (fun nk => (s, fst nk, snd nk)) (parse_unsigned (c :: r)).
Proof.
  intros Hc. destruct s; simpl; [reflexivity|].
  destruct (Ascii.eqb_spec c "-"%char) as [->|_]; [discriminate | reflexivity].
Qed.

Lemma print_nat_head (n : Z) :
  exists c r, print_nat n = c :: r /\ is_digit c = true.
Proof.
  pose proof (print_nat_all n) as H. pose proof (print_nat_nonempty n) as E.
  destruct (print_nat n) as [|c r]; [congruence|].
  exists c, r. split; [reflexivity|]. now inversion H.
Qed.

(** The numeral printed for [m * 2^e] denotes [n / 10^k] with
    [n / 10^k = m * 2^e], stated without division. *)
Lemma parse_decimal_print_finite (s : bool) (m : positive) (e : Z) :
  exists (n : positive) (k : nat),
    parse_decimal (print_finite s m e) = Some (s, Zpos n, k) /\
    Zpos n * 2 ^ Z.max 0 (- e) = Zpos m * 2 ^ Z.max 0 e * 10 ^ Z.of_nat k.
Proof.
  unfold print_finite. destruct (strip_twos m e) as [m' e'] eqn:Es.
  apply strip_twos_spec in Es as (j & Hj & -> & Em).
  destruct (Z.leb_spec 0 (e + j)) as [He|He].
  - assert (Hp : 0 < Zpos m' * 2 ^ (e + j))
      by (apply Z.mul_pos_pos; [lia | apply Z.pow_pos_nonneg; lia]).
    destruct (Zpos m' * 2 ^ (e + j)) as [|n|n] eqn:En; try lia.
    exists n, O. split.
    + rewrite <- En. destruct (print_nat_head (Zpos m' * 2 ^ (e + j)))
        as (c & r & E & Hc).
      rewrite E, parse_decimal_sign, <- E, parse_unsigned_int by
        (try assumption; lia).
      reflexivity.
    + rewrite <- En, Em. change (10 ^ Z.of_nat 0) with 1. rewrite Z.mul_1_r.
      destruct (Z.le_gt_cases 0 e) as [H0|H0].
      * rewrite Z.max_l, Z.max_r, Z.pow_0_r, Z.pow_add_r by lia. ring.
      * rewrite Z.max_r, Z.max_l, Z.pow_0_r, Z.mul_1_r, <- Z.mul_assoc,
          <- Z.pow_add_r by lia.
        f_equal. f_equal. lia.
  - set (k := - (e + j)). assert (Hk : 0 < k) by (subst k; lia).
    assert (H2 : 0 < 2 ^ k) by (apply Z.pow_pos_nonneg; lia).
    assert (H5 : 0 < 5 ^ k) by (apply Z.pow_pos_nonneg; lia).
    assert (H10 : 10 ^ k = 2 ^ k * 5 ^ k) by (now rewrite <- Z.pow_mul_l).
    pose proof (Z.div_mod (Zpos m') (2 ^ k)) as Hdm.
    pose proof (Z.mod_pos_bound (Zpos m') (2 ^ k) H2) as Hr.
    assert (Hi : 0 <= Zpos m' / 2 ^ k) by (apply Z.div_pos; lia).
    set (i := Zpos m' / 2 ^ k) in *. set (r := Zpos m' mod 2 ^ k) in *.
    assert (Hn : i * 10 ^ k + r * 5 ^ k = Zpos m' * 5 ^ k)
      by (rewrite H10, Hdm by lia; ring).
    assert (Hp : 0 < Zpos m' * 5 ^ k) by (apply Z.mul_pos_pos; lia).
    destruct (Zpos m' * 5 ^ k) as [|n|n] eqn:En; try lia.
    exists n, (Z.to_nat k). rewrite Z2Nat.id by lia. split.
    + destruct (print_nat_head i) as (c & t & E & Hc).
      rewrite E. cbn [app]. rewrite parse_decimal_sign by assumption.
      change (c :: t ++ "."%char :: fixed_digits (Z.to_nat k) (r * 5 ^ k))
        with ((c :: t) ++ "."%char :: fixed_digits (Z.to_nat k) (r * 5 ^ k)).
      rewrite <- E, parse_unsigned_frac; rewrite ?Z2Nat.id by lia;
        try lia; [| rewrite H10; nia].
      cbn [option_map fst snd]. now rewrite Hn.
    + rewrite <- En, Em, Z.max_r, Z.max_l, Z.pow_0_r, Z.mul_1_r by lia.
      replace (- e) with (k + j) by (subst k; lia).
      rewrite Z.pow_add_r, H10 by lia. ring.
Qed.

Lemma round_decimal_print_finite (s : bool) (m : positive) (e : Z) :
  bounded prec emax m e = true ->
  exists (n : Z) (k : nat),
    parse_decimal (print_finite s m e) = Some (s, n, k) /\
    round_decimal s n k = S754_finite s m e.
Proof.
  intros Hb.
  destruct (parse_decimal_print_finite s m e) as (n & k & Hp & Hv).
  exists (Zpos n), k. split; [exact Hp|].
  unfold round_decimal. apply SFdiv_exact; [exact Hb|].
  rewrite Z2Pos.id by (apply Z.pow_pos_nonneg; lia). exact Hv.
Qed.

(** Every finite [double] is read back from its text. *)
Lemma parse_double_print (x : float) :
  is_finite x = true -> parse_double (print_double x) = Some x.
Proof.
  intros Hf. pose proof (Prim2SF_valid x) as Hv.
  pose proof (SF2Prim_Prim2SF x) as Hx.
  pose proof Hf as Hs. apply is_finite_spec in Hs.
  unfold parse_double, print_double.
  destruct (Prim2SF x) as [s|s| |s m e]; try contradiction.
  - assert (E : parse_decimal (print_sign s ++ ["0"%char]) = Some (s, 0, O))
      by (destruct s; reflexivity).
    rewrite E. cbn [round_decimal]. rewrite Hx, Hf. reflexivity.
  - destruct (round_decimal_print_finite s m e Hv) as (n & k & Hp & Hr).
    rewrite Hp, Hr, Hx, Hf. reflexivity.
Qed.

Lemma print_double_chars (x : float) :
  is_finite x = true ->
  Forall (fun c => numeral_char c = true) (print_double x).
Proof.
  intros Hf. apply is_finite_spec in Hf. unfold print_double.
  assert (Hd : forall l, Forall (fun c => is_digit c = true) l ->
                         Forall (fun c => numeral_char c = true) l).
  { intros l. apply Forall_impl. intros c Hc. unfold numeral_char.
    now rewrite Hc. }
  assert (Hsign : forall s, Forall (fun c => numeral_char c = true)
                                   (print_sign s))
    by (intros []; repeat constructor).
  destruct (Prim2SF x) as [s|s| |s m e]; try contradiction.
  - apply Forall_app. split; [apply Hsign | repeat constructor].
  - unfold print_finite. destruct (strip_twos m e) as [m' e'].
    apply Forall_app. split; [apply Hsign|].
    destruct (0 <=? e'); [apply Hd, print_nat_all|].
    apply Forall_app. split; [apply Hd, print_nat_all|].
    constructor; [reflexivity | apply Hd, fixed_digits_all].
Qed.

Lemma parse_size_print (s : Size) :
  all_finite s = true -> parse_size (print_size s) = Some s.
Proof.
  unfold all_finite. rewrite andb_true_iff. intros [Hw Hh].
  unfold parse_size, print_size. rewrite split_at_app.
  - rewrite !parse_double_print by assumption. now destruct s.
  - intros Hin. pose proof (print_double_chars _ Hw) as H.
    rewrite Forall_forall in H. apply H in Hin. discriminate.
Qed.

(** ** The parser accepts the grammar and nothing else *)

Import Grammar.

Lemma digits_val_all (l : list ascii) : forall acc v,
  digits_val acc l = Some v -> Forall (fun c => is_digit c = true) l.
Proof.
  induction l as [|c l IH]; intros acc v H; simpl in H; [constructor|].
  destruct (digit_val c) as [d|] eqn:E; [|discriminate].
  constructor; [unfold is_digit; now rewrite E | eapply IH, H].
Qed.

Lemma parse_digits_some (l : list ascii) (v : Z) :
  parse_digits l = Some v <-> digits l /\ digits_val 0 l = Some v.
Proof.
  split.
  - intros H. destruct l as [|c l]; [discriminate|].
    change (digits_val 0 (c :: l) = Some v) in H.
    repeat split; [discriminate | eapply digits_val_all, H | exact H].
  - intros [[Hne _] H]. now rewrite parse_digits_nonempty.
Qed.

Lemma split_at_some (sep : ascii) (l : list ascii) : forall a b,
  split_at sep l = Some (a, b) -> l = a ++ sep :: b.
Proof.
  induction l as [|c l IH]; intros a b H; simpl in H; [discriminate|].
  destruct (Ascii.eqb_spec c sep) as [->|Hc].
  - now inversion H.
  - destruct (split_at sep l) as [[a' b']|]; [|discriminate].
    inversion H; subst. simpl. f_equal. now apply IH.
Qed.

Lemma digits_head (l : list ascii) :
  digits l -> exists c r, l = c :: r /\ is_digit c = true.
Proof.
  intros [Hne Hd]. destruct l as [|c r]; [congruence|].
  exists c, r. split; [reflexivity | now inversion Hd].
Qed.

Lemma parse_unsigned_digits (l : list ascii) (i : Z) :
  digits l -> digits_val 0 l = Some i -> parse_unsigned l = Some (i, O).
Proof.
  intros Hd Hv. unfold parse_unsigned.
  rewrite split_at_none by (apply not_in_digits; [reflexivity | apply Hd]).
  now rewrite (proj2 (parse_digits_some l i)).
Qed.

Lemma parse_unsigned_point (ip fp : list ascii) (i f : Z) :
  digits ip -> digits fp ->
  digits_val 0 ip = Some i -> digits_val 0 fp = Some f ->
  parse_unsigned (ip ++ "."%char :: fp)
  = Some (i * 10 ^ Z.of_nat (List.length fp) + f, List.length fp).
Proof.
  intros Hi Hf Vi Vf. unfold parse_unsigned.
  rewrite split_at_app by (apply not_in_digits; [reflexivity | apply Hi]).
  now rewrite (proj2 (parse_digits_some ip i)),
              (proj2 (parse_digits_some fp f)).
Qed.

Lemma parse_unsigned_numeral (s : bool) (l : list ascii) (n : Z) (k : nat) :
  parse_unsigned l = Some (n, k) -> numeral (print_sign s ++ l) s n k.
Proof.
  unfold parse_unsigned. intros H.
  destruct (split_at "."%char l) as [[ip fp]|] eqn:Es.
  - apply split_at_some in Es. subst l.
    destruct (parse_digits ip) as [i|] eqn:Ei; [|discriminate].
    destruct (parse_digits fp) as [f|] eqn:Ef; [|discriminate].
    apply parse_digits_some in Ei as [Hi Vi], Ef as [Hf Vf].
    inversion H; subst. now apply numeral_frac.
  - destruct (parse_digits l) as [i|] eqn:Ei; [|discriminate].
    apply parse_digits_some in Ei as [Hi Vi].
    inversion H; subst. now apply numeral_int.
Qed.

Lemma parse_decimal_spec (l : list ascii) (s : bool) (n : Z) (k : nat) :
  parse_decimal l = Some (s, n, k) <-> numeral l s n k.
Proof.
  split.
  - destruct l as [|c r]; [discriminate|]. cbn [parse_decimal].
    destruct (Ascii.eqb_spec c "-"%char) as [->|Hc]; intros H.
    + destruct (parse_unsigned r) as [[n' k']|] eqn:E; [|discriminate].
      inversion H; subst. now apply (parse_unsigned_numeral true).
    + destruct (parse_unsigned (c :: r)) as [[n' k']|] eqn:E; [|discriminate].
      inversion H; subst. now apply (parse_unsigned_numeral false).
  - intros H. destruct H as [s ip i Hd Hv | s ip fp i f Hi Hf Vi Vf].
    + destruct (digits_head ip Hd) as (c & r & -> & Hc).
      rewrite parse_decimal_sign, (parse_unsigned_digits _ i) by assumption.
      reflexivity.
    + destruct (digits_head ip Hi) as (c & r & E & Hc).
      rewrite E. cbn [app]. rewrite parse_decimal_sign by assumption.
      change (c :: r ++ "."%char :: fp) with ((c :: r) ++ "."%char :: fp).
      rewrite <- E, (parse_unsigned_point ip fp i f) by assumption.
      reflexivity.
Qed.

Lemma parse_double_spec (l : list ascii) (x : float) :
  parse_double l = Some x <-> numeral_of l x /\ is_finite x = true.
Proof.
  unfold parse_double, numeral_of. split.
  - destruct (parse_decimal l) as [[[s n] k]|] eqn:E; [|discriminate].
    apply parse_decimal_spec in E.
    destruct (is_finite (SF2Prim (round_decimal s n k))) eqn:Ef;
      [|discriminate].
    intros H. inversion H; subst. split; [now exists s, n, k | exact Ef].
  - intros [(s & n & k & Hn & ->) Hf].
    apply parse_decimal_spec in Hn. now rewrite Hn, Hf.
Qed.

(** A text is the numeral of one number at most. *)
Lemma numeral_of_inj (l : list ascii) (x y : float) :
  numeral_of l x -> numeral_of l y -> x = y.
Proof.
  intros (s & n & k & Hx & ->) (s' & n' & k' & Hy & ->).
  apply parse_decimal_spec in Hx, Hy. congruence.
Qed.

Lemma parse_double_none (l : list ascii) (x : float) :
  numeral_of l x -> is_finite x = false -> parse_double l = None.
Proof.
  intros Hx Hf. destruct (parse_double l) as [y|] eqn:E; [|reflexivity].
  apply parse_double_spec in E as [Hy Hfy].
  rewrite (numeral_of_inj l x y Hx Hy) in Hf. congruence.
Qed.

Lemma numeral_chars (l : list ascii) (s : bool) (n : Z) (k : nat) :
  numeral l s n k -> Forall (fun c => numeral_char c = true) l.
Proof.
  assert (Hd : forall l, digits l ->
                         Forall (fun c => numeral_char c = true) l).
  { intros l' [_ H]. revert H. apply Forall_impl. intros c Hc.
    unfold numeral_char. now rewrite Hc. }
  assert (Hsign : forall s, Forall (fun c => numeral_char c = true)
                                   (print_sign s))
    by (intros []; repeat constructor).
  intros [s' ip i Hi Vi | s' ip fp i f Hi Hf Vi Vf].
  - apply Forall_app. auto.
  - apply Forall_app. split; [apply Hsign|].
    apply Forall_app. split; [auto|]. constructor; [reflexivity | auto].
Qed.

(** A conforming text is cut at its only [x]. *)
Lemma conforms_split (str : string) (w h : float) :
  conforms str w h ->
  exists wl hl,
    split_at "x"%char (list_ascii_of_string str) = Some (wl, hl) /\
    numeral_of wl w /\ numeral_of hl h.
Proof.
  intros (wl & hl & E & Hw & Hh). exists wl, hl.
  split; [|now split]. rewrite E. apply split_at_app.
  destruct Hw as (s & n & k & Hn & _). apply numeral_chars in Hn.
  intros Hin. rewrite Forall_forall in Hn. apply Hn in Hin. discriminate.
Qed.

Lemma conforms_inj (str : string) (w h w' h' : float) :
  conforms str w h -> conforms str w' h' -> w = w' /\ h = h'.
Proof.
  intros H H'.
  apply conforms_split in H as (wl & hl & E & Hw & Hh).
  apply conforms_split in H' as (wl' & hl' & E' & Hw' & Hh').
  rewrite E in E'. inversion E'; subst.
  split; eapply numeral_of_inj; eassumption.
Qed.

Lemma parse_size_spec (str : string) (w h : float) :
  parse_size (list_ascii_of_string str) = Some (mkSize w h)
  <-> conforms str w h /\ is_finite w = true /\ is_finite h = true.
Proof.
  unfold parse_size. split.
  - destruct (split_at "x"%char (list_ascii_of_string str))
      as [[wl hl]|] eqn:Es; [|discriminate].
    apply split_at_some in Es.
    destruct (parse_double wl) as [w'|] eqn:Ew; [|discriminate].
    destruct (parse_double hl) as [h'|] eqn:Eh; [|discriminate].
    intros H. inversion H; subst.
    apply parse_double_spec in Ew as [Hw Fw], Eh as [Hh Fh].
    split; [now exists wl, hl | now split].
  - intros [H [Fw Fh]].
    apply conforms_split in H as (wl & hl & -> & Hw & Hh).
    now rewrite (proj2 (parse_double_spec wl w)),
                (proj2 (parse_double_spec hl h)).
Qed.

(** The parser rejects a text for one of two reasons: it does not conform,
    or one of its numerals is not finite once rounded. *)
Lemma parse_size_none (str : string) :
  parse_size (list_ascii_of_string str) = None <->
  ~ (exists w h, conforms str w h) \/
  (exists w h, conforms str w h /\
               (is_finite w = false \/ is_finite h = false)).
Proof.
  split.
  - intros Hp.
    destruct (split_at "x"%char (list_ascii_of_string str))
      as [[wl hl]|] eqn:Es.
    + destruct (parse_decimal wl) as [[[sw nw] kw]|] eqn:Ew.
      * destruct (parse_decimal hl) as [[[sh nh] kh]|] eqn:Eh.
        -- right.
           exists (SF2Prim (round_decimal sw nw kw)),
                  (SF2Prim (round_decimal sh nh kh)).
           assert (Hc : conforms str (SF2Prim (round_decimal sw nw kw))
                                     (SF2Prim (round_decimal sh nh kh))).
           { exists wl, hl. apply split_at_some in Es.
             apply parse_decimal_spec in Ew, Eh.
             split; [exact Es|]. split; [now exists sw, nw, kw|].
             now exists sh, nh, kh. }
           split; [exact Hc|].
           destruct (is_finite (SF2Prim (round_decimal sw nw kw))) eqn:Fw;
             [|now left].
           destruct (is_finite (SF2Prim (round_decimal sh nh kh))) eqn:Fh;
             [|now right].
           rewrite (proj2 (parse_size_spec str _ _) (conj Hc (conj Fw Fh)))
             in Hp.
           discriminate.
        -- left. intros (w & h & H).
           apply conforms_split in H as (wl' & hl' & E & _ & Hh).
           rewrite Es in E. inversion E; subst.
           destruct Hh as (s & n & k & Hn & _).
           apply parse_decimal_spec in Hn. congruence.
      * left. intros (w & h & H).
        apply conforms_split in H as (wl' & hl' & E & Hw & _).
        rewrite Es in E. inversion E; subst.
        destruct Hw as (s & n & k & Hn & _).
        apply parse_decimal_spec in Hn. congruence.
    + left. intros (w & h & H).
      apply conforms_split in H as (wl' & hl' & E & _). congruence.
  - intros [H|(w & h & H & Hf)].
    + destruct (parse_size (list_ascii_of_string str)) as [[w h]|] eqn:E;
        [|reflexivity].
      exfalso. apply H. exists w, h. now apply parse_size_spec.
    + apply conforms_split in H as (wl & hl & E & Hw & Hh).
      unfold parse_size. rewrite E. destruct Hf as [Hf|Hf].
      * now rewrite (parse_double_none wl w).
      * rewrite (parse_double_none hl h) by assumption.
        now destruct (parse_double wl).
Qed.

End TextFacts.

(** * The properties of the specification *)

Section Properties.

Local Open Scope float_scope.

(** C1 (as amended): [isZero] is true exactly when the binary64 product
    [width * height] compares equal to [0.0], that is, when both dimensions
    are finite and either one of them is zero or the magnitude of their
    exact product is at most [2^(-1075)], so that it rounds to zero.  In
    particular it is true whenever one dimension is zero and the other is
    finite (not only when both are zero), and it is never true when a
    dimension is a NaN or an infinity.  [Size(5,0)], [Size(0,5)] and
    [Size(0,0)] are zero, [Size(1,1)] is not. *)
Theorem isZero_product (s : Size) :
  (Size.isZero s = true <-> (width s * height s =? 0) = true) /\
  Size.isZero s =
    all_finite s &&
    (Double.eq (width s) 0 || Double.eq (height s) 0 ||
     product_underflows (width s) (height s)) /\
  ((Double.eq (width s) 0 = true \/ Double.eq (height s) 0 = true) /\
   all_finite s = true -> Size.isZero s = true) /\
  (Size.isZero s = true -> all_finite s = true) /\
  Size.isZero (mkSize 5 0) = true /\
  Size.isZero (mkSize 0 5) = true /\
  Size.isZero (mkSize 0 0) = true /\
  Size.isZero (mkSize 1 1) = false.
Proof.
  split; [reflexivity|].
  assert (E : Size.isZero s =
              all_finite s &&
              (Double.eq (width s) 0 || Double.eq (height s) 0 ||
               product_underflows (width s) (height s)))
    by apply Double_mul_eq_zero.
  split; [exact E|]. rewrite E.
  split; [|split; [|repeat split]].
  - intros [[H|H] ->]; rewrite H; cbn [andb orb]; [reflexivity|].
    now rewrite orb_true_r.
  - intros H. now apply andb_true_iff in H.
Qed.

Lemma isZero_product_witness :
  ((Double.eq 5 0 = true \/ Double.eq 0 0 = true) /\
   all_finite (mkSize 5 0) = true) /\
  Size.isZero (mkSize 5 0) = true.
Proof.
  assert (H : (Double.eq 5 0 = true \/ Double.eq 0 0 = true) /\
              all_finite (mkSize 5 0) = true)
    by (split; [right|]; reflexivity).
  split; [exact H|].
  exact (proj1 (proj2 (proj2 (isZero_product (mkSize 5 0)))) H).
Defined.

(** C1, as stated, fails in both directions: the product of the non-zero
    dimensions of [Size(1e-200, 1e-200)] rounds to zero, and
    [Size(0, inf)] has a zero dimension and a NaN product. *)
Lemma isZero_counterexample :
  (Size.isZero (mkSize 1e-200 1e-200) = true /\
   Double.eq 1e-200 0 = false) /\
  (Size.isZero (mkSize 0 infinity) = false /\ Double.eq 0 0 = true) /\
  ~ (forall s : Size,
       Size.isZero s = true <->
       Double.eq (width s) 0 = true \/ Double.eq (height s) 0 = true).
Proof.
  repeat split. intros H.
  destruct (proj1 (H (mkSize 1e-200 1e-200)) eq_refl) as [E|E];
    vm_compute in E; discriminate.
Qed.

(** C4 (as amended): for sizes without NaN fields, [unionWith] is idempotent
    and commutative up to [==].  [s.unionWith(s)] always has the fields of
    [s], so that [s.unionWith(s) == s] holds exactly when [s] has no NaN
    field, and [a.unionWith(b) == b.unionWith(a)] holds exactly when neither
    [a] nor [b] has one. *)
Theorem unionWith_idem_comm (a b : Size) :
  (has_nan a = false -> has_nan b = false ->
   Size.eq (Size.unionWith a a) a = true /\
   Size.eq (Size.unionWith a b) (Size.unionWith b a) = true) /\
  Size.unionWith a a = a /\
  Size.eq (Size.unionWith a a) a = negb (has_nan a) /\
  Size.eq (Size.unionWith a b) (Size.unionWith b a)
  = negb (has_nan a || has_nan b).
Proof.
  assert (E : Size.unionWith a a = a).
  { destruct a as [w h]. unfold Size.unionWith. cbn [width height].
    now rewrite !Double_max_idem. }
  assert (Ei : Size.eq (Size.unionWith a a) a = negb (has_nan a))
    by (rewrite E; apply Size_eq_refl).
  assert (Ec : Size.eq (Size.unionWith a b) (Size.unionWith b a)
               = negb (has_nan a || has_nan b)).
  { unfold Size.eq, Size.unionWith, has_nan. cbn [width height].
    rewrite !Double_max_comm.
    destruct (is_nan (width a)), (is_nan (height a)),
             (is_nan (width b)), (is_nan (height b)); reflexivity. }
  split; [|auto].
  intros Ha Hb. rewrite Ei, Ec, Ha, Hb. split; reflexivity.
Qed.

Lemma unionWith_idem_comm_witness :
  has_nan (mkSize 100 200) = false /\ has_nan (mkSize 50 300) = false /\
  Size.eq (Size.unionWith (mkSize 100 200) (mkSize 100 200)) (mkSize 100 200)
  = true /\
  Size.eq (Size.unionWith (mkSize 100 200) (mkSize 50 300))
          (Size.unionWith (mkSize 50 300) (mkSize 100 200)) = true.
Proof.
  split; [reflexivity|]. split; [reflexivity|].
  exact (proj1 (unionWith_idem_comm (mkSize 100 200) (mkSize 50 300))
           eq_refl eq_refl).
Defined.

(** C4, as stated, fails on NaN fields: [s.unionWith(s) == s] is false for
    [s = Size(NaN, 0)], and [std::max] keeps its first argument when the
    comparison is unordered, so the union is not commutative either. *)
Lemma unionWith_nan_counterexample :
  Size.eq (Size.unionWith (mkSize nan 0) (mkSize nan 0)) (mkSize nan 0) = false /\
  Size.eq (Size.unionWith (mkSize nan 0) (mkSize 1 0))
          (Size.unionWith (mkSize 1 0) (mkSize nan 0)) = false /\
  Size.unionWith (mkSize nan 0) (mkSize 1 0) = mkSize nan 0 /\
  Size.unionWith (mkSize 1 0) (mkSize nan 0) = mkSize 1 0.
Proof. repeat split. Qed.

(** C5 (as amended): [s1 + s2] and [s2 + s1] have the same fields, and
    [s1 + s2 == s2 + s1] holds exactly when no field of the sum is a NaN;
    it holds in particular whenever the fields of [s1] and [s2] are
    finite. *)
Theorem add_commutes (s1 s2 : Size) :
  Size.add s1 s2 = Size.add s2 s1 /\
  Size.eq (Size.add s1 s2) (Size.add s2 s1) = negb (has_nan (Size.add s1 s2)) /\
  (all_finite s1 = true -> all_finite s2 = true ->
   Size.eq (Size.add s1 s2) (Size.add s2 s1) = true).
Proof.
  assert (E : Size.eq (Size.add s1 s2) (Size.add s2 s1)
              = negb (has_nan (Size.add s1 s2)))
    by (rewrite (Size_add_comm s2 s1); apply Size_eq_refl).
  split; [apply Size_add_comm|]. split; [exact E|].
  unfold all_finite. rewrite !andb_true_iff. intros [Hw1 Hh1] [Hw2 Hh2].
  rewrite E. unfold has_nan, Size.add. cbn [width height].
  now rewrite !Double_add_finite.
Qed.

Lemma add_commutes_witness :
  all_finite (mkSize 0.1 (-3)) = true /\ all_finite (mkSize 0.2 1e308) = true /\
  Size.eq (Size.add (mkSize 0.1 (-3)) (mkSize 0.2 1e308))
          (Size.add (mkSize 0.2 1e308) (mkSize 0.1 (-3))) = true.
Proof.
  split; [reflexivity|]. split; [reflexivity|].
  exact (proj2 (proj2 (add_commutes (mkSize 0.1 (-3)) (mkSize 0.2 1e308)))
           eq_refl eq_refl).
Defined.

(** C5, as stated, fails: the sum of opposite infinities is a NaN, which is
    not equal to itself. *)
Lemma add_commutes_counterexample :
  Size.eq (Size.add (mkSize infinity 0) (mkSize neg_infinity 0))
          (Size.add (mkSize neg_infinity 0) (mkSize infinity 0)) = false.
Proof. reflexivity. Qed.

(** C6: [a != b] is the negation of [a == b], for all values of the fields
    (NaN included), and [a == b] is true exactly when both pairs of fields
    compare equal. *)
Theorem ne_is_not_eq (a b : Size) :
  Size.ne a b = negb (Size.eq a b) /\
  (Size.eq a b = true <->
   (width b =? width a) = true /\ (height b =? height a) = true) /\
  Size.eq (mkSize nan 1) (mkSize nan 1) = false /\
  Size.ne (mkSize nan 1) (mkSize nan 1) = true.
Proof.
  split; [|split; [|split; reflexivity]].
  - unfold Size.ne, Size.eq. rewrite !Double_ne_negb. now rewrite negb_andb.
  - unfold Size.eq, Double.eq. apply andb_true_iff.
Qed.

(** C7 (as amended): for sizes [a] and [b] without NaN fields,
    [a.unionWith(b)] has, on each axis independently, the maximum of the
    operands' fields: one of the two, with both less than or equal to it.
    On each axis this holds exactly when neither operand's field is a NaN.
    [Size(100,200).unionWith(Size(50,300))] is [Size(100,300)]. *)
Theorem unionWith_max (a b : Size) :
  (has_nan a = false -> has_nan b = false ->
   is_max_of (width (Size.unionWith a b)) (width a) (width b) /\
   is_max_of (height (Size.unionWith a b)) (height a) (height b)) /\
  (is_max_of (width (Size.unionWith a b)) (width a) (width b) <->
   is_nan (width a) = false /\ is_nan (width b) = false) /\
  (is_max_of (height (Size.unionWith a b)) (height a) (height b) <->
   is_nan (height a) = false /\ is_nan (height b) = false) /\
  Size.unionWith (mkSize 100 200) (mkSize 50 300) = mkSize 100 300 /\
  Size.eq (Size.unionWith (mkSize 100 200) (mkSize 50 300)) (mkSize 100 300)
    = true.
Proof.
  split; [|split; [|split; [|split; reflexivity]]];
    cbn [Size.unionWith width height]; try apply Double_max_is_max.
  unfold has_nan. rewrite !orb_false_iff. intros [Haw Hah] [Hbw Hbh].
  split; apply Double_max_is_max; auto.
Qed.

Lemma unionWith_max_witness :
  has_nan (mkSize 100 200) = false /\ has_nan (mkSize 50 300) = false /\
  is_max_of (width (Size.unionWith (mkSize 100 200) (mkSize 50 300))) 100 50 /\
  is_max_of (height (Size.unionWith (mkSize 100 200) (mkSize 50 300))) 200 300.
Proof.
  split; [reflexivity|]. split; [reflexivity|].
  exact (proj1 (unionWith_max (mkSize 100 200) (mkSize 50 300))
           eq_refl eq_refl).
Defined.

(** C7, as stated, fails on a NaN field: the width of
    [Size(NaN,0).unionWith(Size(1,0))] is a NaN, which [1] is not less than
    or equal to, and with the operands exchanged it is [1], which the NaN is
    not less than or equal to.  Neither is the maximum of the two widths. *)
Lemma unionWith_max_counterexample :
  width (Size.unionWith (mkSize nan 0) (mkSize 1 0)) = nan /\
  (1 <=? width (Size.unionWith (mkSize nan 0) (mkSize 1 0))) = false /\
  width (Size.unionWith (mkSize 1 0) (mkSize nan 0)) = 1 /\
  (nan <=? width (Size.unionWith (mkSize 1 0) (mkSize nan 0))) = false /\
  ~ is_max_of (width (Size.unionWith (mkSize nan 0) (mkSize 1 0))) nan 1 /\
  ~ is_max_of (width (Size.unionWith (mkSize 1 0) (mkSize nan 0))) 1 nan.
Proof.
  repeat split; intros (_ & H1 & H2);
    vm_compute in H1, H2; discriminate.
Qed.

(** C8 (as amended): for every size [s] without NaN fields,
    [s + Size(0,0) == s] and [s - Size(0,0) == s]; each comparison holds
    exactly when [s] has no NaN field. *)
Theorem add_sub_zero (s : Size) :
  (has_nan s = false ->
   Size.eq (Size.add s (mkSize 0 0)) s = true /\
   Size.eq (Size.sub s (mkSize 0 0)) s = true) /\
  Size.eq (Size.add s (mkSize 0 0)) s = negb (has_nan s) /\
  Size.eq (Size.sub s (mkSize 0 0)) s = negb (has_nan s) /\
  Size.eq (Size.add s Size.default) s = negb (has_nan s).
Proof.
  assert (Ea : Size.eq (Size.add s (mkSize 0 0)) s = negb (has_nan s)).
  { unfold has_nan, Size.eq, Size.add. cbn [width height].
    rewrite !Double_add_zero. now rewrite negb_orb. }
  assert (Es : Size.eq (Size.sub s (mkSize 0 0)) s = negb (has_nan s)).
  { unfold has_nan, Size.eq, Size.sub. cbn [width height].
    rewrite !Double_sub_zero. now rewrite negb_orb. }
  split; [|auto].
  intros H. rewrite Ea, Es, H. split; reflexivity.
Qed.

Lemma add_sub_zero_witness :
  has_nan (mkSize 3 (-0)) = false /\
  Size.eq (Size.add (mkSize 3 (-0)) (mkSize 0 0)) (mkSize 3 (-0)) = true /\
  Size.eq (Size.sub (mkSize 3 (-0)) (mkSize 0 0)) (mkSize 3 (-0)) = true.
Proof.
  split; [reflexivity|].
  exact (proj1 (add_sub_zero (mkSize 3 (-0))) eq_refl).
Defined.

(** C8, as stated, fails on a NaN field: [Size(NaN, 0) + Size(0,0)] is not
    [==] to [Size(NaN, 0)], nor is the difference. *)
Lemma add_sub_zero_counterexample :
  Size.eq (Size.add (mkSize nan 0) (mkSize 0 0)) (mkSize nan 0) = false /\
  Size.eq (Size.sub (mkSize nan 0) (mkSize 0 0)) (mkSize nan 0) = false.
Proof. split; reflexivity. Qed.

(** C9: [isPositive] is true exactly when [width > 0.0] and [height > 0.0];
    a dimension that is zero or below zero makes it false.  [Size(1,1)] is
    positive, [Size(0,1)] and [Size(-1,1)] are not. *)
Theorem isPositive_spec (s : Size) :
  (Size.isPositive s = true <->
   Double.gt (width s) 0 = true /\ Double.gt (height s) 0 = true) /\
  (Size.isPositive s = true <->
   (0 <? width s) = true /\ (0 <? height s) = true) /\
  (Double.eq (width s) 0 = true \/ Double.lt (width s) 0 = true \/
   Double.eq (height s) 0 = true \/ Double.lt (height s) 0 = true ->
   Size.isPositive s = false) /\
  Size.isPositive (mkSize 1 1) = true /\
  Size.isPositive (mkSize 0 1) = false /\
  Size.isPositive (mkSize (-1) 1) = false.
Proof.
  split; [apply andb_true_iff|].
  split; [unfold Size.isPositive; rewrite !Double_gt_lt; apply andb_true_iff|].
  split; [|repeat split].
  unfold Size.isPositive. intros [H|[H|[H|H]]].
  - rewrite (Double_gt_zero_false (width s)) by auto. reflexivity.
  - rewrite (Double_gt_zero_false (width s)) by auto. reflexivity.
  - rewrite (Double_gt_zero_false (height s)) by auto. apply andb_false_r.
  - rewrite (Double_gt_zero_false (height s)) by auto. apply andb_false_r.
Qed.

Lemma isPositive_spec_witness :
  Double.lt (-1) 0 = true /\ Size.isPositive (mkSize (-1) 1) = false.
Proof.
  split; [reflexivity|].
  exact (proj1 (proj2 (proj2 (isPositive_spec (mkSize (-1) 1))))
           (or_intror (or_introl eq_refl))).
Defined.

(** C10: [isPositive] does not exclude [isZero]: both hold of
    [Size(1e-200, 1e-200)], whose fields are above zero and whose product
    rounds to [0.0]. *)
Theorem isPositive_and_isZero :
  (exists s : Size, Size.isPositive s = true /\ Size.isZero s = true) /\
  Size.isPositive (mkSize 1e-200 1e-200) = true /\
  Size.isZero (mkSize 1e-200 1e-200) = true /\
  1e-200 * 1e-200 = 0 /\
  ~ (forall s : Size, Size.isPositive s = true -> Size.isZero s = false).
Proof.
  assert (P : Size.isPositive (mkSize 1e-200 1e-200) = true) by reflexivity.
  assert (Z : Size.isZero (mkSize 1e-200 1e-200) = true) by reflexivity.
  repeat split; auto.
  - exists (mkSize 1e-200 1e-200). auto.
  - intros H. specialize (H _ P). congruence.
Qed.

(** C2: for every size [s] with finite fields, [fromString] applied to
    [s.toString()] succeeds and leaves the receiver equal to [s], field for
    field and for [==]; the text conforms to [<width>x<height>].
    [Size(10,10).toString()] is ["10x10"], and [fromString("10x10")] gives
    [Size(10,10)]. *)
Theorem toString_fromString (self s : Size) :
  all_finite s = true ->
  fromString self (toString s) = (inl tt, s) /\
  Size.eq (snd (fromString self (toString s))) s = true /\
  Grammar.conforms (toString s) (width s) (height s) /\
  toString (mkSize 10 10) = "10x10"%string /\
  fromString self "10x10" = (inl tt, mkSize 10 10).
Proof.
  intros Hf.
  assert (P : Text.parse_size (list_ascii_of_string (toString s)) = Some s).
  { unfold toString.
    now rewrite list_ascii_of_string_of_list_ascii, parse_size_print. }
  assert (E : fromString self (toString s) = (inl tt, s))
    by (unfold fromString; now rewrite P).
  split; [exact E|].
  split; [|split; [|split; vm_compute; reflexivity]].
  2:{ destruct s as [w h]. now apply parse_size_spec in P. }
  rewrite E, Size_eq_refl. cbn [snd]. unfold has_nan.
  unfold all_finite, is_finite in Hf.
  rewrite andb_true_iff, !negb_true_iff, !orb_false_iff in Hf.
  destruct Hf as [[-> _] [-> _]]. reflexivity.
Qed.

Lemma toString_fromString_witness :
  all_finite (mkSize 100.5 (-0.1)) = true /\
  fromString (mkSize 0 0) (toString (mkSize 100.5 (-0.1)))
  = (inl tt, mkSize 100.5 (-0.1)).
Proof.
  split; [reflexivity|].
  exact (proj1 (toString_fromString (mkSize 0 0) (mkSize 100.5 (-0.1))
                  eq_refl)).
Defined.

(** C3: [fromString] fails with [ParseError] exactly when the text does not
    conform to [<width>x<height>] or one of its numerals does not parse as
    a finite number; otherwise it succeeds with the two numbers.  The error
    is part of the result, and the receiver is then [(0, 0)], whatever it
    was before and whatever part of the text was well formed.  On ["abc"],
    ["100"] and ["100xabc"] it fails.  The other operations are total: each
    returns a value on every input. *)
Theorem fromString_ParseError (self : Size) (str : string) :
  (fst (fromString self str) = inr ParseError <->
   ~ (exists w h, Grammar.conforms str w h) \/
   (exists w h, Grammar.conforms str w h /\
                (is_finite w = false \/ is_finite h = false))) /\
  (forall w h, Grammar.conforms str w h ->
               is_finite w = true -> is_finite h = true ->
               fromString self str = (inl tt, mkSize w h)) /\
  (fst (fromString self str) = inr ParseError ->
   snd (fromString self str) = mkSize 0 0) /\
  fromString self "abc" = (inr ParseError, mkSize 0 0) /\
  fromString self "100" = (inr ParseError, mkSize 0 0) /\
  fromString self "100xabc" = (inr ParseError, mkSize 0 0) /\
  (forall (o : Size) (k : float),
     exists (m a d u : Size) (e n z p : bool) (t : string),
       Size.mul self k = m /\ Size.add self o = a /\ Size.sub self o = d /\
       Size.unionWith self o = u /\ Size.eq self o = e /\
       Size.ne self o = n /\ Size.isZero self = z /\
       Size.isPositive self = p /\ toString self = t).
Proof.
  split; [|split; [|split]].
  - rewrite <- parse_size_none. unfold fromString.
    destruct (Text.parse_size (list_ascii_of_string str));
      split; intros H; try discriminate; reflexivity.
  - intros w h Hc Fw Fh. unfold fromString.
    now rewrite (proj2 (parse_size_spec str w h)).
  - unfold fromString.
    destruct (Text.parse_size (list_ascii_of_string str));
      [discriminate | reflexivity].
  - repeat split. intros o k. repeat eexists.
Qed.

Lemma fromString_ParseError_witness :
  fst (fromString (mkSize 7 9) "100xabc") = inr ParseError /\
  snd (fromString (mkSize 7 9) "100xabc") = mkSize 0 0.
Proof.
  split; [reflexivity|].
  exact (proj1 (proj2 (proj2 (fromString_ParseError (mkSize 7 9) "100xabc")))
           eq_refl).
Defined.

(** The texts of the specification's examples, a numeral too large for a
    finite [double], and the text of a size that is not finite. *)
Example toString_examples :
  toString (mkSize 100 200) = "100x200"%string /\
  toString (mkSize 100.5 200.25) = "100.5x200.25"%string /\
  toString (mkSize (-0.375) 0) = "-0.375x0"%string /\
  toString (mkSize infinity nan) = "infxnan"%string.
Proof. repeat split; vm_compute; reflexivity. Qed.

Example fromString_examples :
  fromString (mkSize 7 9) "100.5x200.25" = (inl tt, mkSize 100.5 200.25) /\
  fromString (mkSize 7 9) "0.1x-3" = (inl tt, mkSize 0.1 (-3)) /\
  fromString (mkSize 7 9) "1e10x1" = (inr ParseError, mkSize 0 0) /\
  fromString (mkSize 7 9) " 1x1" = (inr ParseError, mkSize 0 0) /\
  fromString (mkSize 7 9) "1x1x1" = (inr ParseError, mkSize 0 0) /\
  fromString (mkSize 7 9) (toString (mkSize 1e308 1e308)) =
    (inl tt, mkSize 1e308 1e308) /\
  fromString (mkSize 7 9) (toString (mkSize 1e308 1e308) ++ "0") =
    (inr ParseError, mkSize 0 0) /\
  fromString (mkSize 7 9) (toString (mkSize infinity 1)) =
    (inr ParseError, mkSize 0 0).
Proof. repeat split; vm_compute; reflexivity. Qed.

End Properties.

(** * Further facts on rounding *)

Section RoundingMore.

Local Open Scope Z_scope.

(** The sign of a rounded value is the one that was given. *)
Lemma binary_round_aux_sign (s : bool) (m e : Z) (l : location) :
  match binary_round_aux prec emax s m e l with
  | S754_zero s' | S754_infinity s' | S754_finite s' _ _ => s' = s
  | S754_nan => True
  end.
Proof.
  unfold binary_round_aux.
  destruct (shr_fexp prec emax m e l) as [mrs' e'].
  destruct (shr_fexp prec emax _ e' loc_Exact) as [mrs'' e''].
  destruct (shr_m mrs''); auto.
  destruct (e'' <=? emax - prec); reflexivity.
Qed.

(** Rounding [m * 2^e] does not depend on how the value is split between
    mantissa and exponent, as long as the exponent is not above the one of
    the format. *)
Lemma binary_round_aux_shift (s : bool) (m : positive) (e j : Z) :
  e <= fexp prec emax (Zpos (digits2_pos m) + e) -> 0 <= j ->
  binary_round_aux prec emax s (Zpos m * 2 ^ j) (e - j) loc_Exact
  = binary_round_aux prec emax s (Zpos m) e loc_Exact.
Proof.
  intros He Hj. unfold binary_round_aux, shr_fexp.
  rewrite Zdigits2_mul_pow2 by assumption. cbn [Zdigits2 shr_record_of_loc].
  replace (Zpos (digits2_pos m) + j + (e - j))
    with (Zpos (digits2_pos m) + e) by lia.
  set (f := fexp prec emax (Zpos (digits2_pos m) + e)) in *.
  assert (E : shr (Build_shr_record (Zpos m * 2 ^ j) false false)
                  (e - j) (f - (e - j))
              = shr (Build_shr_record (Zpos m) false false) e (f - e)).
  { destruct (Z.eq_dec f e) as [->|Hne].
    - replace (e - (e - j)) with j by lia. rewrite Z.sub_diag.
      rewrite shr_exact, shr_nonpos by lia. f_equal. lia.
    - assert (H2 : 0 < 2 ^ j) by (apply Z.pow_pos_nonneg; lia).
      rewrite !shr_pos by (try lia; apply Z.mul_nonneg_nonneg; lia).
      replace (f - (e - j)) with (f - e + j) by lia.
      replace (f - e + j - 1) with (f - e - 1 + j) by lia.
      rewrite !Z.pow_add_r by lia.
      rewrite !Z.div_mul_cancel_r by
        (try apply Z.pow_nonzero; lia).
      rewrite Z.mul_mod_distr_r by
        (try apply Z.pow_nonzero; try lia; apply Z.pow_pos_nonneg; lia).
      f_equal; [|lia]. f_equal.
      assert (H1 : 0 < 2 ^ (f - e - 1)) by (apply Z.pow_pos_nonneg; lia).
      destruct (Z.eqb_spec (Zpos m mod 2 ^ (f - e - 1)) 0) as [->|Hz];
        [reflexivity|].
      destruct (Z.eqb_spec (Zpos m mod 2 ^ (f - e - 1) * 2 ^ j) 0);
        [nia | reflexivity]. }
  rewrite E. reflexivity.
Qed.

End RoundingMore.

(** * The order of [double] *)

Section Order.

Local Open Scope Z_scope.

Lemma SFltb_key (x y : spec_float) :
  x <> S754_nan -> y <> S754_nan ->
  (SFltb x y = true <-> key_lt (SFkey x) (SFkey y)).
Proof.
  intros Hx Hy. unfold SFltb.
  destruct x as [sx|sx| |sx mx ex], y as [sy|sy| |sy my ey];
    try congruence; cbn [SFcompare SFkey];
    try (destruct sx; cbn [key_lt]; split; intros H; try discriminate;
         try reflexivity; lia);
    try (destruct sy; cbn [key_lt]; split; intros H; try discriminate;
         try reflexivity; lia);
    try (destruct sx, sy; cbn [key_lt]; split; intros H; try discriminate;
         try reflexivity; lia).
  change (Pos.compare_cont Eq mx my) with (Pos.compare mx my).
  destruct sx, sy; cbn [key_lt];
    destruct (Z.compare_spec ex ey), (Pos.compare_spec mx my);
    cbn [CompOpp]; split; intros L; try discriminate; try reflexivity; lia.
Qed.

Lemma SFltb_trans (x y z : spec_float) :
  SFltb x y = true -> SFltb y z = true -> SFltb x z = true.
Proof.
  intros Hxy Hyz.
  assert (Hx : x <> S754_nan) by (intros ->; discriminate).
  assert (Hy : y <> S754_nan) by (intros ->; discriminate).
  assert (Hz : z <> S754_nan)
    by (intros ->; unfold SFltb in Hyz; destruct y; discriminate).
  rewrite SFltb_key in * by assumption.
  unfold key_lt in *.
  destruct (SFkey x) as [[a b] c], (SFkey y) as [[a' b'] c'],
           (SFkey z) as [[a'' b''] c'']. lia.
Qed.

(** For numbers, "not less" is transitive too. *)
Lemma SFltb_negtrans (x y z : spec_float) :
  x <> S754_nan -> y <> S754_nan -> z <> S754_nan ->
  SFltb x y = false -> SFltb y z = false -> SFltb x z = false.
Proof.
  intros Hx Hy Hz Hxy Hyz.
  destruct (SFltb x z) eqn:Hxz; [|reflexivity].
  assert (Nxy : ~ key_lt (SFkey x) (SFkey y))
    by (rewrite <- SFltb_key by assumption; congruence).
  assert (Nyz : ~ key_lt (SFkey y) (SFkey z))
    by (rewrite <- SFltb_key by assumption; congruence).
  apply SFltb_key in Hxz; try assumption.
  unfold key_lt in *.
  destruct (SFkey x) as [[a b] c], (SFkey y) as [[a' b'] c'],
           (SFkey z) as [[a'' b''] c'']. lia.
Qed.

End Order.

(** * Further facts on the operators of [double] *)

Section DoubleMore.

Local Open Scope float_scope.

Lemma SFeqb_sym (x y : spec_float) : SFeqb x y = SFeqb y x.
Proof.
  unfold SFeqb. rewrite (SFcompare_antisym y x).
  destruct (SFcompare y x) as [[]|]; reflexivity.
Qed.

(** Two values compare equal when they are the same number, or two zeros
    of any signs. *)
Lemma SFeqb_true (x y : spec_float) :
  SFeqb x y = true <->
  (x = y /\ x <> S754_nan) \/
  (exists s s', x = S754_zero s /\ y = S754_zero s').
Proof.
  split.
  - unfold SFeqb.
    destruct x as [sx|sx| |sx mx ex], y as [sy|sy| |sy my ey];
      cbn [SFcompare]; intros H; try discriminate;
      try (destruct sx; discriminate); try (destruct sy; discriminate).
    + right. eauto.
    + left. destruct sx, sy; try discriminate; split; congruence.
    + left.
      assert (E : ex = ey /\ mx = my).
      { change (Pos.compare_cont Eq mx my) with (Pos.compare mx my) in H.
        destruct sx, sy; try discriminate;
          destruct (Z.compare_spec ex ey); try discriminate;
          destruct (Pos.compare_spec mx my); try discriminate; auto. }
      destruct E as [-> ->].
      destruct sx, sy; try discriminate;
        try (rewrite Z.compare_refl in H; discriminate);
        split; congruence.
  - intros [[<- Hx]|(s & s' & -> & ->)]; [|reflexivity].
    rewrite SFeqb_refl. destruct x; congruence.
Qed.

Lemma Double_eq_sym (a b : float) : Double.eq a b = Double.eq b a.
Proof. unfold Double.eq. rewrite !eqb_spec. apply SFeqb_sym. Qed.

Lemma Double_eq_true (a b : float) :
  Double.eq a b = true <->
  (a = b /\ is_nan a = false) \/
  (Double.eq a 0 = true /\ Double.eq b 0 = true).
Proof.
  rewrite !Double_eq_zero_SF, is_nan_false. unfold Double.eq.
  rewrite eqb_spec, SFeqb_true. split.
  - intros [[E Hn]|(s & s' & Ea & Eb)].
    + left. split; [now apply Prim2SF_inj | assumption].
    + right. now rewrite Ea, Eb.
  - intros [[-> Hn]|[Ha Hb]]; [now left|]. right.
    destruct (Prim2SF a) as [s| | |]; try discriminate.
    destruct (Prim2SF b) as [s'| | |]; try discriminate. eauto.
Qed.

Lemma Double_eq_trans (a b c : float) :
  Double.eq a b = true -> Double.eq b c = true -> Double.eq a c = true.
Proof.
  intros H1 H2. apply Double_eq_true in H1, H2. apply Double_eq_true.
  destruct H1 as [[-> Ha]|[Ha Hb]], H2 as [[-> Hb']|[Hb' Hc]]; auto.
Qed.

(** Values that compare equal are compared alike with any third one. *)
Lemma Double_eq_compat (a b c : float) :
  Double.eq a b = true ->
  Double.eq c a = Double.eq c b /\ Double.eq a c = Double.eq b c.
Proof.
  intros H.
  assert (E : Double.eq c a = Double.eq c b).
  { destruct (Double.eq c a) eqn:Ea.
    - symmetry. now apply Double_eq_trans with a.
    - destruct (Double.eq c b) eqn:Eb; [|reflexivity].
      rewrite Double_eq_sym in H.
      rewrite (Double_eq_trans c b a Eb H) in Ea. discriminate. }
  split; [exact E|]. now rewrite (Double_eq_sym a c), (Double_eq_sym b c).
Qed.

Lemma Double_eq_finite (a b : float) :
  Double.eq a b = true -> is_finite a = is_finite b.
Proof.
  rewrite Double_eq_true, !Double_eq_zero_SF, !is_finite_SF.
  intros [[-> _]|[Ha Hb]]; [reflexivity|].
  destruct (Prim2SF a), (Prim2SF b); try discriminate; reflexivity.
Qed.

Lemma Double_eq_gt_zero (a b : float) :
  Double.eq a b = true -> Double.gt a 0 = Double.gt b 0.
Proof.
  rewrite Double_eq_true. intros [[-> _]|[Ha Hb]]; [reflexivity|].
  now rewrite !Double_gt_zero_false by auto.
Qed.

(** Whether a product compares equal to zero depends on the factors up to
    [==] only. *)
Lemma Double_eq_mul_zero (a b a' b' : float) :
  Double.eq a b = true -> Double.eq a' b' = true ->
  Double.eq (a * a') 0 = Double.eq (b * b') 0.
Proof.
  intros H H'. rewrite !Double_mul_eq_zero.
  rewrite (Double_eq_finite a b H), (Double_eq_finite a' b' H').
  rewrite (proj2 (Double_eq_compat a b 0 H)),
          (proj2 (Double_eq_compat a' b' 0 H')).
  apply Double_eq_true in H, H'.
  destruct H as [[-> _]|[_ Hb]], H' as [[-> _]|[_ Hb']];
    rewrite ?Hb, ?Hb', ?orb_true_r; cbn [orb]; reflexivity.
Qed.

Lemma Double_gt_zero_SF (a : float) :
  Double.gt a 0 =
  match Prim2SF a with
  | S754_finite false _ _ | S754_infinity false => true
  | _ => false
  end.
Proof.
  rewrite Double_gt_lt. unfold Double.lt. rewrite ltb_spec, Prim2SF_zero.
  destruct (Prim2SF a) as [[]|[]| |[] m e]; reflexivity.
Qed.

Lemma Double_gt_nan (a : float) : is_nan a = true -> Double.gt a 0 = false.
Proof.
  intros H. rewrite Double_gt_lt. apply Double_lt_nan. auto.
Qed.

Lemma is_finite_nan (a : float) : is_nan a = true -> is_finite a = false.
Proof. intros H. unfold is_finite. now rewrite H. Qed.

Lemma Double_lt_trans (a b c : float) :
  Double.lt a b = true -> Double.lt b c = true -> Double.lt a c = true.
Proof. unfold Double.lt. rewrite !ltb_spec. apply SFltb_trans. Qed.

Lemma Double_lt_negtrans (a b c : float) :
  is_nan a = false -> is_nan b = false -> is_nan c = false ->
  Double.lt a b = false -> Double.lt b c = false -> Double.lt a c = false.
Proof.
  rewrite !is_nan_false. unfold Double.lt. rewrite !ltb_spec.
  apply SFltb_negtrans.
Qed.

Lemma Double_lt_not_nan (a b : float) :
  Double.lt a b = true -> is_nan a = false /\ is_nan b = false.
Proof.
  intros H. destruct (is_nan a) eqn:Ha.
  - rewrite Double_lt_nan in H by auto. discriminate.
  - destruct (is_nan b) eqn:Hb; [|auto].
    rewrite Double_lt_nan in H by auto. discriminate.
Qed.

(** [std::max] is associative on numbers. *)
Lemma Double_max_assoc (a b c : float) :
  is_nan a = false -> is_nan b = false -> is_nan c = false ->
  Double.max (Double.max a b) c = Double.max a (Double.max b c).
Proof.
  intros Ha Hb Hc. unfold Double.max.
  destruct (Double.lt a b) eqn:Eab, (Double.lt b c) eqn:Ebc;
    rewrite ?Eab, ?Ebc; try reflexivity.
  - now rewrite (Double_lt_trans a b c).
  - now rewrite (Double_lt_negtrans a b c).
Qed.

(** The maximum is above zero when its first argument is, and when its
    second argument is and the first is a number. *)
Lemma Double_max_pos_l (a b : float) :
  Double.gt a 0 = true -> Double.gt (Double.max a b) 0 = true.
Proof.
  rewrite !Double_gt_lt. intros Ha. unfold Double.max.
  destruct (Double.lt a b) eqn:E; [|exact Ha].
  now apply Double_lt_trans with a.
Qed.

Lemma Double_max_pos_r (a b : float) :
  is_nan a = false -> Double.gt b 0 = true ->
  Double.gt (Double.max a b) 0 = true.
Proof.
  rewrite !Double_gt_lt. intros Ha Hb. unfold Double.max.
  destruct (Double.lt a b) eqn:E; [exact Hb|].
  destruct (Double.lt 0 a) eqn:E0; [reflexivity|].
  destruct (Double_lt_not_nan _ _ Hb) as [H0 Hnb].
  rewrite (Double_lt_negtrans 0 a b) in Hb by assumption. discriminate.
Qed.

End DoubleMore.

(** * Further facts on the arithmetic of [double] *)

Section ArithMore.

Local Open Scope float_scope.

Lemma bounded_canonical (m : positive) (e : Z) :
  bounded prec emax m e = true ->
  fexp prec emax (Zpos (digits2_pos m) + e) = e /\ (-1074 <= e)%Z.
Proof.
  unfold bounded, canonical_mantissa. rewrite andb_true_iff, Z.eqb_eq.
  intros [Hc _]. split; [exact Hc|]. rewrite fexp_64 in Hc. lia.
Qed.

Lemma shl_align_ge (m : positive) (e e' : Z) :
  (e <= e')%Z -> shl_align m e e' = (m, e).
Proof.
  intros H. unfold shl_align. destruct (e' - e)%Z eqn:E; try reflexivity. lia.
Qed.

Lemma shl_align_snd (m : positive) (e e' : Z) :
  snd (shl_align m e e') = Z.min e e'.
Proof.
  unfold shl_align. destruct (e' - e)%Z eqn:E; cbn [snd]; lia.
Qed.

Lemma Prim2SF_one : Prim2SF 1 = S754_finite false 4503599627370496 (-52).
Proof. reflexivity. Qed.

Lemma Prim2SF_two : Prim2SF 2 = S754_finite false 4503599627370496 (-51).
Proof. reflexivity. Qed.

(** Multiplying by [1.0] changes nothing. *)
Lemma Double_mul_one (a : float) : a * 1 = a.
Proof.
  apply Prim2SF_inj. rewrite mul_spec, Prim2SF_one.
  pose proof (Prim2SF_valid a) as Hv.
  destruct (Prim2SF a) as [s|s| |s m e]; cbn [SF64mul SFmul];
    unfold SF64mul, SFmul; rewrite ?xorb_false_r; try reflexivity.
  rewrite Pos2Z.inj_mul.
  change (Zpos 4503599627370496) with (2 ^ 52)%Z.
  change (e + -52)%Z with (e - 52)%Z.
  apply binary_round_aux_exact; [exact Hv | lia].
Qed.

(** Multiplying by [2.0] is adding the number to itself. *)
Lemma Double_mul_two (a : float) : a * 2 = a + a.
Proof.
  apply Prim2SF_inj. rewrite mul_spec, add_spec, Prim2SF_two.
  pose proof (Prim2SF_valid a) as Hv.
  destruct (Prim2SF a) as [s|s| |s m e]; unfold SF64mul, SFmul, SF64add, SFadd;
    rewrite ?xorb_false_r; try reflexivity; try (now destruct s).
  apply bounded_canonical in Hv as [Hc He].
  assert (Hd : (e <= fexp prec emax (Zpos (digits2_pos m~0) + e))%Z).
  { rewrite <- Hc at 1. apply fexp_mono. cbn [digits2_pos]. lia. }
  rewrite Z.min_id, (shl_align_ge m e e) by lia. cbn [fst].
  assert (E : binary_normalize prec emax
                (cond_Zopp s (Zpos m) + cond_Zopp s (Zpos m)) e false
              = binary_round_aux prec emax s (Zpos m~0) e loc_Exact).
  { destruct s; cbn [cond_Zopp Z.opp Z.add]; rewrite Pos.add_diag;
      unfold binary_normalize, binary_round;
      now rewrite shl_align_ge by exact Hd. }
  rewrite E.
  replace (Zpos (m * 4503599627370496)) with (Zpos m~0 * 2 ^ 51)%Z
    by (rewrite Pos2Z.inj_mul; change (2 ^ 51)%Z with 2251799813685248%Z; lia).
  change (e + -51)%Z with (e - 51)%Z.
  apply binary_round_aux_shift; [exact Hd | lia].
Qed.

(** A finite number minus itself is [+0.0]; otherwise the difference is a
    NaN. *)
Lemma Double_sub_self (a : float) :
  a - a = if is_finite a then 0 else nan.
Proof.
  apply Prim2SF_inj. rewrite sub_spec, is_finite_SF.
  destruct (Prim2SF a) as [s|s| |s m e]; unfold SF64sub, SFsub;
    try (now destruct s); try reflexivity.
  rewrite Z.min_id, (shl_align_ge m e e), Z.sub_diag by lia. reflexivity.
Qed.

(** The sum of two numbers above zero is above zero: a sum does not
    underflow. *)
Lemma Double_add_pos (a b : float) :
  Double.gt a 0 = true -> Double.gt b 0 = true -> Double.gt (a + b) 0 = true.
Proof.
  rewrite !Double_gt_zero_SF, add_spec.
  pose proof (Prim2SF_valid a) as Va. pose proof (Prim2SF_valid b) as Vb.
  destruct (Prim2SF a) as [sa|[]| |[] ma ea]; try discriminate;
    destruct (Prim2SF b) as [sb|[]| |[] mb eb]; try discriminate;
    intros _ _; try reflexivity.
  apply bounded_canonical in Va as [_ Ha], Vb as [_ Hb].
  unfold SF64add, SFadd. cbn [cond_Zopp Z.add].
  unfold binary_normalize, binary_round.
  set (ez := Z.min ea eb).
  set (p := (fst (shl_align ma ea ez) + fst (shl_align mb eb ez))%positive).
  pose proof (shl_align_snd p ez
                (fexp prec emax (Zpos (digits2_pos p) + ez))) as Hs.
  rewrite fexp_64 in Hs.
  destruct (shl_align p ez _) as [mz ez']. cbn [snd] in Hs.
  pose proof (binary_round_aux_zero false mz ez') as Hz.
  pose proof (binary_round_aux_sign false (Zpos mz) ez' loc_Exact) as Hsg.
  destruct (binary_round_aux prec emax false (Zpos mz) ez' loc_Exact)
    as [s|s| |s m e]; try contradiction; subst; try reflexivity.
  rewrite Z.pow_neg_r in Hz by (subst ez; lia). lia.
Qed.

(** Scaling a number above zero by a factor of at least [1.0] keeps it
    above zero. *)
Lemma Double_mul_pos_ge1 (a k : float) :
  Double.gt a 0 = true -> (1 <=? k) = true -> Double.gt (a * k) 0 = true.
Proof.
  rewrite !Double_gt_zero_SF, leb_spec, mul_spec, Prim2SF_one.
  pose proof (Prim2SF_valid a) as Va. pose proof (Prim2SF_valid k) as Vk.
  unfold SFleb.
  destruct (Prim2SF a) as [sa|[]| |[] ma ea]; try discriminate;
    destruct (Prim2SF k) as [sk|[]| |[] mk ek]; try discriminate;
    intros _ Hk; try reflexivity.
  apply bounded_canonical in Va as [_ Ha], Vk as [Hc Hek].
  assert (Hmk : (ek <= -1 -> 2 ^ 52 <= Zpos mk /\ -52 <= ek)%Z).
  { intros Hneg. cbn [SFcompare] in Hk.
    change (Pos.compare_cont Eq 4503599627370496 mk)
      with (Pos.compare 4503599627370496 mk) in Hk.
    destruct (Z.compare_spec (-52) ek) as [E|E|E]; try discriminate.
    - subst ek. destruct (Pos.compare_spec 4503599627370496 mk) as [E|E|E];
        try discriminate; split; try lia;
        change (2 ^ 52)%Z with 4503599627370496%Z; lia.
    - rewrite fexp_64 in Hc.
      assert (Hd : Zpos (digits2_pos mk) = 53%Z) by lia.
      pose proof (digits2_bounds mk) as [Hlo _]. rewrite Hd in Hlo.
      split; [exact Hlo | lia]. }
  unfold SF64mul, SFmul. cbn [xorb].
  pose proof (binary_round_aux_zero false (ma * mk) (ea + ek)) as Hz.
  pose proof (binary_round_aux_sign false (Zpos (ma * mk)) (ea + ek)
                loc_Exact) as Hsg.
  destruct (binary_round_aux prec emax false (Zpos (ma * mk)) (ea + ek)
                             loc_Exact)
    as [s|s| |s m e]; try contradiction; subst; try reflexivity.
  exfalso.
  destruct (Z.le_gt_cases 0 (-1075 - (ea + ek))) as [Ht|Ht].
  - destruct Hmk as [Hm He]; [lia|].
    assert (H51 : (2 ^ (-1075 - (ea + ek)) <= 2 ^ 51)%Z)
      by (apply Z.pow_le_mono_r; lia).
    change (2 ^ 51)%Z with 2251799813685248%Z in H51.
    change (2 ^ 52)%Z with 4503599627370496%Z in Hm.
    rewrite Pos2Z.inj_mul in Hz. nia.
  - rewrite Z.pow_neg_r in Hz by lia. lia.
Qed.

End ArithMore.

(** * Further properties of [Size] *)

Section Further.

Local Open Scope float_scope.

(** X1: scaling by [1.0] gives back the size, field for field. *)
Theorem mul_one (s : Size) : Size.mul s 1 = s.
Proof.
  destruct s as [w h]. unfold Size.mul. cbn [width height].
  now rewrite !Double_mul_one.
Qed.

(** X2: scaling by [2.0] gives the fields of the size added to itself. *)
Theorem mul_two_add (s : Size) : Size.mul s 2 = Size.add s s.
Proof.
  unfold Size.mul, Size.add. now rewrite !Double_mul_two.
Qed.

(** X3: a size with finite fields minus itself is [Size(0, 0)], with
    positive zeros; [s - s == Size(0, 0)] and [(s - s).isZero()] hold exactly
    when the fields of [s] are finite, since an infinity minus itself is a
    NaN. *)
Theorem sub_self (s : Size) :
  (all_finite s = true -> Size.sub s s = mkSize 0 0) /\
  Size.eq (Size.sub s s) (mkSize 0 0) = all_finite s /\
  Size.isZero (Size.sub s s) = all_finite s.
Proof.
  unfold all_finite, Size.sub, Size.eq, Size.isZero. cbn [width height].
  rewrite !Double_sub_self.
  destruct (is_finite (width s)), (is_finite (height s));
    repeat split; try reflexivity; discriminate.
Qed.

Lemma sub_self_witness :
  all_finite (mkSize 0.1 (-1e308)) = true /\
  Size.sub (mkSize 0.1 (-1e308)) (mkSize 0.1 (-1e308)) = mkSize 0 0.
Proof.
  split; [reflexivity|].
  exact (proj1 (sub_self (mkSize 0.1 (-1e308))) eq_refl).
Defined.

(** X4: [==] is symmetric and transitive, and a size is [==] to itself
    exactly when it has no NaN field. *)
Theorem eq_sym_trans (a b c : Size) :
  Size.eq a b = Size.eq b a /\
  (Size.eq a b = true -> Size.eq b c = true -> Size.eq a c = true) /\
  Size.eq a a = negb (has_nan a).
Proof.
  split; [|split; [|apply Size_eq_refl]].
  - unfold Size.eq.
    now rewrite (Double_eq_sym (width b)), (Double_eq_sym (height b)).
  - unfold Size.eq. rewrite !andb_true_iff.
    intros [Hw Hh] [Hw' Hh'].
    split; eapply Double_eq_trans; eassumption.
Qed.

Lemma eq_sym_trans_witness :
  Size.eq (mkSize 0 1) (mkSize (-0) 1) = true /\
  Size.eq (mkSize (-0) 1) (mkSize 0 1) = true /\
  Size.eq (mkSize 0 1) (mkSize 0 1) = true.
Proof.
  split; [reflexivity|]. split; [reflexivity|].
  exact (proj1 (proj2 (eq_sym_trans (mkSize 0 1) (mkSize (-0) 1)
                         (mkSize 0 1))) eq_refl eq_refl).
Defined.

(** X5: sizes that are [==] are not told apart by [isZero], [isPositive],
    [==] or [!=], although their fields may differ (zeros of opposite
    signs). *)
Theorem eq_congruence (a b : Size) :
  Size.eq a b = true ->
  Size.isZero a = Size.isZero b /\
  Size.isPositive a = Size.isPositive b /\
  (forall o : Size,
     Size.eq a o = Size.eq b o /\ Size.eq o a = Size.eq o b /\
     Size.ne a o = Size.ne b o /\ Size.ne o a = Size.ne o b).
Proof.
  unfold Size.eq at 1. rewrite andb_true_iff. intros [Hw Hh].
  split; [|split].
  - unfold Size.isZero. symmetry. now apply Double_eq_mul_zero.
  - unfold Size.isPositive.
    now rewrite (Double_eq_gt_zero _ _ Hw), (Double_eq_gt_zero _ _ Hh).
  - intros o.
    destruct (Double_eq_compat _ _ (width o) Hw) as [Ew1 Ew2].
    destruct (Double_eq_compat _ _ (height o) Hh) as [Eh1 Eh2].
    unfold Size.ne, Size.eq. rewrite !Double_ne_negb.
    now rewrite Ew1, Ew2, Eh1, Eh2.
Qed.

Lemma eq_congruence_witness :
  Size.eq (mkSize 0 5) (mkSize (-0) 5) = true /\
  mkSize 0 5 <> mkSize (-0) 5 /\
  Size.isZero (mkSize 0 5) = Size.isZero (mkSize (-0) 5).
Proof.
  split; [reflexivity|]. split.
  - intros E. apply (f_equal (fun s => Prim2SF (width s))) in E.
    vm_compute in E. discriminate.
  - exact (proj1 (eq_congruence (mkSize 0 5) (mkSize (-0) 5) eq_refl)).
Defined.

(** X6: a size with a NaN field is neither zero nor positive, is [==] to
    no size and [!=] to every size, itself included. *)
Theorem nan_field (s : Size) :
  has_nan s = true ->
  Size.isZero s = false /\ Size.isPositive s = false /\
  (forall o : Size,
     Size.eq s o = false /\ Size.eq o s = false /\
     Size.ne s o = true /\ Size.ne o s = true).
Proof.
  unfold has_nan. rewrite orb_true_iff. intros H.
  assert (Hz : Size.isZero s = false).
  { unfold Size.isZero. rewrite Double_mul_eq_zero.
    destruct H as [H|H]; rewrite (is_finite_nan _ H);
      [reflexivity | now rewrite andb_false_r]. }
  assert (Hp : Size.isPositive s = false).
  { unfold Size.isPositive.
    destruct H as [H|H]; rewrite (Double_gt_nan _ H);
      [reflexivity | apply andb_false_r]. }
  assert (He : forall o, Size.eq s o = false /\ Size.eq o s = false).
  { intros o. unfold Size.eq.
    destruct H as [H|H].
    - now rewrite (Double_eq_nan (width o) (width s)),
                  (Double_eq_nan (width s) (width o)) by auto.
    - rewrite (Double_eq_nan (height o) (height s)),
              (Double_eq_nan (height s) (height o)) by auto.
      now rewrite !andb_false_r. }
  split; [exact Hz|]. split; [exact Hp|].
  intros o. destruct (He o) as [E1 E2].
  assert (N : forall x y, Size.ne x y = negb (Size.eq x y)).
  { intros x y. unfold Size.ne, Size.eq. rewrite !Double_ne_negb.
    now rewrite negb_andb. }
  now rewrite !N, E1, E2.
Qed.

Lemma nan_field_witness :
  has_nan (mkSize 1 nan) = true /\
  Size.isZero (mkSize 1 nan) = false /\
  Size.isPositive (mkSize 1 nan) = false.
Proof.
  split; [reflexivity|].
  destruct (nan_field (mkSize 1 nan) eq_refl) as (Hz & Hp & _).
  exact (conj Hz Hp).
Defined.

(** X7: the sum of two positive sizes is positive. *)
Theorem add_positive (a b : Size) :
  Size.isPositive a = true -> Size.isPositive b = true ->
  Size.isPositive (Size.add a b) = true.
Proof.
  unfold Size.isPositive, Size.add. cbn [width height].
  rewrite !andb_true_iff. intros [Haw Hah] [Hbw Hbh].
  split; now apply Double_add_pos.
Qed.

Lemma add_positive_witness :
  Size.isPositive (mkSize 5e-324 1e308) = true /\
  Size.isPositive (mkSize 5e-324 1e308) = true /\
  Size.isPositive (Size.add (mkSize 5e-324 1e308) (mkSize 5e-324 1e308))
  = true.
Proof.
  split; [reflexivity|]. split; [reflexivity|].
  exact (add_positive (mkSize 5e-324 1e308) (mkSize 5e-324 1e308)
           eq_refl eq_refl).
Defined.

(** X8: the union of a positive size with any size is positive, and so is
    the union of a size without NaN fields with a positive size. *)
Theorem unionWith_positive (a b : Size) :
  (Size.isPositive a = true ->
   Size.isPositive (Size.unionWith a b) = true) /\
  (has_nan a = false -> Size.isPositive b = true ->
   Size.isPositive (Size.unionWith a b) = true).
Proof.
  unfold Size.isPositive, Size.unionWith, has_nan. cbn [width height].
  split.
  - rewrite !andb_true_iff. intros [Hw Hh].
    split; now apply Double_max_pos_l.
  - rewrite orb_false_iff, !andb_true_iff. intros [Nw Nh] [Hw Hh].
    split; now apply Double_max_pos_r.
Qed.

Lemma unionWith_positive_witness :
  has_nan (mkSize (-3) 0) = false /\
  Size.isPositive (mkSize 1 2) = true /\
  Size.isPositive (Size.unionWith (mkSize (-3) 0) (mkSize 1 2)) = true /\
  Size.isPositive (Size.unionWith (mkSize 1 2) (mkSize nan (-1))) = true.
Proof.
  split; [reflexivity|]. split; [reflexivity|]. split.
  - exact (proj2 (unionWith_positive (mkSize (-3) 0) (mkSize 1 2))
             eq_refl eq_refl).
  - exact (proj1 (unionWith_positive (mkSize 1 2) (mkSize nan (-1)))
             eq_refl).
Defined.

(** X9: on sizes without NaN fields [unionWith] is associative, field for
    field. *)
Theorem unionWith_assoc (a b c : Size) :
  has_nan a = false -> has_nan b = false -> has_nan c = false ->
  Size.unionWith (Size.unionWith a b) c
  = Size.unionWith a (Size.unionWith b c).
Proof.
  unfold has_nan. rewrite !orb_false_iff.
  intros [Haw Hah] [Hbw Hbh] [Hcw Hch].
  unfold Size.unionWith. cbn [width height].
  now rewrite !Double_max_assoc.
Qed.

Lemma unionWith_assoc_witness :
  has_nan (mkSize 1 (-0)) = false /\ has_nan (mkSize 3 0) = false /\
  has_nan (mkSize 2 infinity) = false /\
  Size.unionWith (Size.unionWith (mkSize 1 (-0)) (mkSize 3 0))
                 (mkSize 2 infinity)
  = Size.unionWith (mkSize 1 (-0))
                   (Size.unionWith (mkSize 3 0) (mkSize 2 infinity)).
Proof.
  repeat (split; [reflexivity|]).
  exact (unionWith_assoc (mkSize 1 (-0)) (mkSize 3 0) (mkSize 2 infinity)
           eq_refl eq_refl eq_refl).
Defined.

(** X10: scaling a positive size by a factor of at least [1.0] gives a
    positive size. *)
Theorem mul_positive (s : Size) (k : float) :
  Size.isPositive s = true -> (1 <=? k) = true ->
  Size.isPositive (Size.mul s k) = true.
Proof.
  unfold Size.isPositive, Size.mul. cbn [width height].
  rewrite !andb_true_iff. intros [Hw Hh] Hk.
  split; now apply Double_mul_pos_ge1.
Qed.

Lemma mul_positive_witness :
  Size.isPositive (mkSize 5e-324 1e308) = true /\ (1 <=? 1.5) = true /\
  Size.isPositive (Size.mul (mkSize 5e-324 1e308) 1.5) = true.
Proof.
  split; [reflexivity|]. split; [reflexivity|].
  exact (mul_positive (mkSize 5e-324 1e308) 1.5 eq_refl eq_refl).
Defined.

End Further.
